(** * Sales dashboard: normalisation, filtering, KPI, pivot and chart series

    A shallow embedding of the data engine of [src/index.tsx]
    ([cleanString], [parseNum], [normalizeData], [filteredData], [stats],
    [pivotTable], the row totals of the pivot table body and [chartData])
    together with the properties its specification states about it.

    Modelling conventions.
    - A JavaScript number is an exact rational ([Qc]).  Rounding, NaN and
      the infinities of IEEE doubles are outside the model; a division
      whose divisor is zero, the one operation that would leave the finite
      numbers, is an explicit failure ([divide]).
    - A JavaScript string is a [string] of bytes, the UTF-8 encoding of its
      text.  Substring search agrees with the source on it, and so does
      character-wise comparison of texts within the Basic Multilingual
      Plane.
    - A run-time [TypeError] (reading a property of [undefined] or [null],
      converting an object that cannot be converted to a string) is [None]
      in the [option] monad.
    - Objects used as dictionaries ([Record<string, ...>]) are [gmap]s; their
      keys are ordinary property names.
    - Number-to-string and string-to-number conversions of the host and its
      string collation are the fields of the class [JsHost]. *)

From stdpp Require Import base option list gmap strings numbers pretty sorting.
From Stdlib Require Import QArith Qcanon Ascii.
From Stdlib Require OrderedTypeEx.

Set Warnings "-register-all,-clear-no-such-hyp".
Local Open Scope string_scope.
Local Open Scope Qc_scope.

(** ** Host primitives on strings *)

(** White space as [/\s/] and [String.prototype.trim] see it, restricted to
    the one-byte characters: tab, line feed, vertical tab, form feed,
    carriage return and space. *)
Definition isSpace (c : ascii) : bool :=
  let n := nat_of_ascii c in
  ((9 <=? n)%nat && (n <=? 13)%nat) || (n =? 32)%nat.

Definition isNewline (c : ascii) : bool :=
  let n := nat_of_ascii c in (n =? 10)%nat || (n =? 13)%nat.

Definition isDigit (c : ascii) : bool :=
  let n := nat_of_ascii c in (48 <=? n)%nat && (n <=? 57)%nat.

(** [s.replace(/re/g, '')] for a character class: drop every character the
    class accepts. *)
Fixpoint removeAll (p : ascii → bool) (s : string) : string :=
  match s with
  | EmptyString => EmptyString
  | String c s' => if p c then removeAll p s' else String c (removeAll p s')
  end.

Fixpoint trimStart (s : string) : string :=
  match s with
  | EmptyString => EmptyString
  | String c s' => if isSpace c then trimStart s' else s
  end.

Fixpoint trimEnd (s : string) : string :=
  match s with
  | EmptyString => EmptyString
  | String c s' =>
      match trimEnd s' with
      | EmptyString => if isSpace c then EmptyString else String c EmptyString
      | t => String c t
      end
  end.

Definition trim (s : string) : string := trimEnd (trimStart s).

(** [s.includes(sub)] *)
Fixpoint includes (s sub : string) : bool :=
  String.prefix sub s ||
  match s with
  | EmptyString => false
  | String _ s' => includes s' sub
  end.

(** [s.replace(',', '.')]: a string pattern replaces the first match only. *)
Fixpoint replaceFirstComma (s : string) : string :=
  match s with
  | EmptyString => EmptyString
  | String c s' =>
      if Ascii.eqb c "," then String "." s' else String c (replaceFirstComma s')
  end.

(** [s.toLowerCase()] on the Latin letters A-Z and on the Cyrillic block
    U+0400..U+042F, read off the UTF-8 bytes: the lead byte 0xD0 followed by
    0x80..0x8F (U+0400..U+040F) becomes 0xD1 0x90..0x9F, followed by
    0x90..0x9F (U+0410..U+041F) becomes 0xD0 0xB0..0xBF, followed by
    0xA0..0xAF (U+0420..U+042F) becomes 0xD1 0x80..0x8F.  Every other
    character is left as it is. *)
Fixpoint toLowerCase (s : string) : string :=
  match s with
  | EmptyString => EmptyString
  | String c s' =>
      let n := nat_of_ascii c in
      if ((65 <=? n)%nat && (n <=? 90)%nat) then
        String (ascii_of_nat (n + 32)) (toLowerCase s')
      else if (n =? 208)%nat then
        match s' with
        | String c2 s'' =>
            let m := nat_of_ascii c2 in
            if ((128 <=? m)%nat && (m <=? 143)%nat) then
              String (ascii_of_nat 209) (String (ascii_of_nat (m + 16)) (toLowerCase s''))
            else if ((144 <=? m)%nat && (m <=? 159)%nat) then
              String c (String (ascii_of_nat (m + 32)) (toLowerCase s''))
            else if ((160 <=? m)%nat && (m <=? 175)%nat) then
              String (ascii_of_nat 209) (String (ascii_of_nat (m - 32)) (toLowerCase s''))
            else String c (String c2 (toLowerCase s''))
        | EmptyString => String c EmptyString
        end
      else String c (toLowerCase s')
  end.

(** The longest prefix of decimal digits, and what follows it. *)
Fixpoint takeDigits (s : string) : string * string :=
  match s with
  | EmptyString => (EmptyString, EmptyString)
  | String c s' =>
      if isDigit c then let '(d, r) := takeDigits s' in (String c d, r)
      else (EmptyString, s)
  end.

Fixpoint digitsValue (acc : Z) (s : string) : Z :=
  match s with
  | EmptyString => acc
  | String c s' => digitsValue (10 * acc + (Z.of_nat (nat_of_ascii c) - 48)) s'
  end.

(** [parseFloat(s)] on the strings [parseNum] hands it, which hold only
    digits, the full stop and the minus sign: an optional sign, then the
    longest prefix [digits], [digits.], [digits.digits] or [.digits].
    [None] is NaN. *)
Definition parseFloat (s : string) : option Qc :=
  let '(neg, s1) := match s with
                    | String "-"%char r => (true, r)
                    | _ => (false, s)
                    end in
  let '(ip, s2) := takeDigits s1 in
  let fp := match s2 with
            | String "."%char r => fst (takeDigits r)
            | _ => EmptyString
            end in
  if String.eqb ip "" && String.eqb fp "" then None
  else
    let v := Qc_of_Z (digitsValue 0 (ip ++ fp)) / Qc_of_Z (10 ^ Z.of_nat (String.length fp)) in
    Some (if neg then - v else v).

(** What the host contributes: [String(n)] for a number [n], [Number(s)]
    for a string [s] that reads as a finite number ([None] is NaN), and
    the collation behind [a.localeCompare(b)], a total preorder on
    strings. *)
Class JsHost := {
  numToString : Qc → string;
  Number : string → option Qc;
  localeCompare : string → string → comparison;
  localeCompare_antisym a b : localeCompare a b = CompOpp (localeCompare b a);
  localeCompare_trans a b c :
    localeCompare a b ≠ Gt → localeCompare b c ≠ Gt → localeCompare a c ≠ Gt;
}.

(** ** Untyped values *)

Inductive JsVal : Type :=
  | JUndefined
  | JNull
  | JBool (b : bool)
  | JNum (q : Qc)
  | JStr (s : string)
  | JArr (l : list JsVal)
  | JObj (o : gmap string JsVal).

(** [!!v] *)
Definition truthy (v : JsVal) : bool :=
  match v with
  | JUndefined | JNull => false
  | JBool b => b
  | JNum q => negb (bool_decide (q = 0))
  | JStr s => negb (String.eqb s "")
  | JArr _ | JObj _ => true
  end.

(** [a || b] *)
Definition jsOr (a b : JsVal) : JsVal := if truthy a then a else b.

(** [v[k]]: a [TypeError] on [undefined] and [null], [undefined] for a key
    the value does not have.  None of the keys the normaliser reads is
    inherited from a prototype. *)
Definition getProp (v : JsVal) (k : string) : option JsVal :=
  match v with
  | JUndefined | JNull => None
  | JObj o => Some (default JUndefined (o !! k))
  | _ => Some JUndefined
  end.

(** Whether [String(v)] returns.  An object read from JSON with a
    [toString] entry of its own hides [Object.prototype.toString] behind a
    value that cannot be called, and the conversion raises; every other
    object converts.  An array converts its elements in turn. *)
Fixpoint convertible (v : JsVal) : bool :=
  match v with
  | JObj o => negb (bool_decide (is_Some (o !! "toString")))
  | JArr l =>
      (fix all (l : list JsVal) : bool :=
         match l with
         | [] => true
         | x :: l' => convertible x && all l'
         end) l
  | _ => true
  end.

Section Coercion.
Context `{JsHost}.

(** The text [String(v)] returns, when it returns. *)
Fixpoint printed (v : JsVal) : string :=
  match v with
  | JUndefined => "undefined"
  | JNull => "null"
  | JBool true => "true"
  | JBool false => "false"
  | JNum q => numToString q
  | JStr s => s
  | JObj _ => "[object Object]"
  | JArr l =>
      let elt x := match x with
                   | JUndefined | JNull => ""
                   | _ => printed x
                   end in
      (fix join (l : list JsVal) : string :=
         match l with
         | [] => ""
         | [x] => elt x
         | x :: l' => elt x ++ "," ++ join l'
         end) l
  end.

(** [String(v)]: a [TypeError] where the value cannot be converted. *)
Definition toString (v : JsVal) : option string :=
  if convertible v then Some (printed v) else None.

Definition cleanString (val : JsVal) : option string :=
  match val with
  | JNull | JUndefined => Some ""
  | _ => s ← toString val; Some (trim (removeAll isNewline s))
  end.

Definition parseNum (val : JsVal) : option Qc :=
  match val with
  | JNum q => Some q
  | _ =>
      if negb (truthy val) then Some 0
      else
        s ← toString val;
        let cleaned :=
          removeAll (λ c, negb (isDigit c || Ascii.eqb c "." || Ascii.eqb c "-"))
            (replaceFirstComma
               (removeAll isSpace
                  (removeAll isNewline s))) in
        Some (default 0 (parseFloat cleaned))
  end.
End Coercion.

(** ** Zero-guarded ratios *)

(** [a / b] where the quotient is a finite number. *)
Definition divide (a b : Qc) : option Qc :=
  if decide (b = 0) then None else Some (a / b).

(** [den > 0 ? num / den : 0] *)
Definition ratio (num den : Qc) : option Qc :=
  if decide (0 < den) then divide num den else Some 0.

(** The value of [den > 0 ? num / den : 0] as a number. *)
Definition guardedRatio (num den : Qc) : Qc :=
  if decide (0 < den) then num / den else 0.

(** ** Canonical rows ([src/types.ts]) *)

Inductive UnitType := unit_kg | unit_pcs.

Definition unitTypeString (u : UnitType) : string :=
  match u with unit_kg => "kg" | unit_pcs => "pcs" end.

Record NormalizedRow := {
  id : string;
  date : string;
  store_name : string;
  category_name : string;
  unit_raw : string;
  unit_type : UnitType;
  pieces_per_kg : Qc;
  weight_kg : Qc;
  revenue_rub : Qc;
  checks : Qc;
  pieces : Qc;
  week : Qc;
  month : Qc;
  quarter : Qc;
  year : Qc;
  atv : Qc;
  upt : Qc;
  avg_price_per_kg : Qc;
  avg_price_per_piece : Qc;
}.

Record Filters := {
  dateFrom : string;
  dateTo : string;
  stores : list string;
  categories : list string;
  unitTypes : list string;
}.

Inductive PivotValueType :=
  | sum_revenue | sum_checks | sum_pieces | sum_weight | calc_atv | calc_upt.

(** ** Row normaliser *)

Section Normalizer.
Context `{JsHost}.

(** [item.json ? item.json : item] *)
Definition resolveRow (item : JsVal) : option JsVal :=
  j ← getProp item "json";
  Some (if truthy j then j else item).

Definition normalizeRow (idx : nat) (item : JsVal) : option NormalizedRow :=
  row ← resolveRow item;
  r1 ← getProp row "revenue_rub";
  r2 ← getProp row "Выручка, ₽";
  r3 ← getProp row "revenue_rub_raw";
  revenue ← parseNum (jsOr (jsOr r1 r2) r3);
  c1 ← getProp row "checks";
  c2 ← getProp row "Чеки, шт.";
  checks ← parseNum (jsOr c1 c2);
  p1 ← getProp row "pieces";
  p2 ← getProp row "Штуки";
  p3 ← getProp row "peaces";
  pieces ← parseNum (jsOr (jsOr p1 p2) p3);
  w1 ← getProp row "weight_kg";
  w2 ← getProp row "Вес, кг";
  weight ← parseNum (jsOr w1 w2);
  d1 ← getProp row "date";
  d2 ← getProp row "Дата";
  dateStr ← cleanString (jsOr d1 d2);
  s1 ← getProp row "store_name";
  s2 ← getProp row "Магазин";
  store ← cleanString (jsOr (jsOr s1 s2) (JStr "Неизвестно"));
  k1 ← getProp row "category_name";
  k2 ← getProp row "Категория товара";
  category ← cleanString (jsOr (jsOr k1 k2) (JStr "Прочее"));
  u1 ← getProp row "unit_raw";
  u2 ← getProp row "Шт. в кг";
  rawUnit ← cleanString (jsOr u1 u2);
  ut ← getProp row "unit_type";
  utc ← cleanString ut;
  let unitTypeClean := toLowerCase utc in
  let unitType :=
    if includes unitTypeClean "kg" || includes unitTypeClean "кг"
       || includes (toLowerCase rawUnit) "кг"
    then unit_kg else unit_pcs in
  rid ← getProp row "id";
  i ← cleanString rid;
  ppk ← getProp row "pieces_per_kg";
  pieces_per_kg ← parseNum ppk;
  wk ← getProp row "week";
  week ← parseNum wk;
  mo ← getProp row "month";
  month ← parseNum mo;
  qu ← getProp row "quarter";
  quarter ← parseNum qu;
  yr ← getProp row "year";
  y ← parseNum yr;
  atv ← ratio revenue checks;
  upt ← ratio pieces checks;
  appk ← ratio revenue weight;
  appp ← ratio revenue pieces;
  Some {|
    id := if String.eqb i "" then "row-" ++ pretty idx else i;
    date := dateStr;
    store_name := store;
    category_name := category;
    unit_raw := rawUnit;
    unit_type := unitType;
    pieces_per_kg := pieces_per_kg;
    weight_kg := weight;
    revenue_rub := revenue;
    checks := checks;
    pieces := pieces;
    week := week;
    month := month;
    quarter := quarter;
    year := if decide (y = 0) then Qc_of_Z 2025 else y;
    atv := atv;
    upt := upt;
    avg_price_per_kg := appk;
    avg_price_per_piece := appp;
  |}.

(** [raw.map((item, idx) => ...)]: the first element that raises aborts
    the whole map. *)
Fixpoint normalizeFrom (idx : nat) (raw : list JsVal) : option (list NormalizedRow) :=
  match raw with
  | [] => Some []
  | item :: rest =>
      n ← normalizeRow idx item;
      ns ← normalizeFrom (S idx) rest;
      Some (n :: ns)
  end.

Definition normalizeData (raw : list JsVal) : option (list NormalizedRow) :=
  normalizeFrom 0 raw.
End Normalizer.

(** ** Filter engine *)

(** [xs.includes(x)] on an array of strings *)
Definition arrIncludes (xs : list string) (x : string) : bool :=
  existsb (String.eqb x) xs.

(** The callback of [data.filter] in [filteredData]; a non-empty string and
    a non-zero length are the truthy ones. *)
Definition keepRow (filters : Filters) (d : NormalizedRow) : bool :=
  if negb (String.eqb (dateFrom filters) "") && String.ltb (date d) (dateFrom filters) then false
  else if negb (String.eqb (dateTo filters) "") && String.ltb (dateTo filters) (date d) then false
  else if negb (length (stores filters) =? 0)%nat
          && negb (arrIncludes (stores filters) (store_name d)) then false
  else if negb (length (categories filters) =? 0)%nat
          && negb (arrIncludes (categories filters) (category_name d)) then false
  else if negb (length (unitTypes filters) =? 0)%nat
          && negb (arrIncludes (unitTypes filters) (unitTypeString (unit_type d))) then false
  else true.

Definition filteredData (data : list NormalizedRow) (filters : Filters) : list NormalizedRow :=
  List.filter (keepRow filters) data.

(** ** KPI aggregator *)

Record Totals := { t_rev : Qc; t_chk : Qc; t_pcs : Qc; t_wgt : Qc }.

(** The [reduce] of [stats]. *)
Definition total (filteredData : list NormalizedRow) : Totals :=
  foldl (λ acc curr,
           {| t_rev := t_rev acc + revenue_rub curr;
              t_chk := t_chk acc + checks curr;
              t_pcs := t_pcs acc + pieces curr;
              t_wgt := t_wgt acc + weight_kg curr |})
        {| t_rev := 0; t_chk := 0; t_pcs := 0; t_wgt := 0 |}
        filteredData.

(** The six headline numbers of [stats], before they are formatted for
    display. *)
Record Stats := {
  st_revenue : Qc;
  st_checks : Qc;
  st_pieces : Qc;
  st_weight : Qc;
  st_atv : Qc;
  st_upt : Qc;
}.

Definition stats (filteredData : list NormalizedRow) : option Stats :=
  let t := total filteredData in
  a ← ratio (t_rev t) (t_chk t);
  u ← ratio (t_pcs t) (t_chk t);
  Some {| st_revenue := t_rev t; st_checks := t_chk t; st_pieces := t_pcs t;
          st_weight := t_wgt t; st_atv := a; st_upt := u |}.

(** ** Arrays, sets and sorting *)

(** [new Set(xs)] keeps the first occurrence of every element, in insertion
    order; [Array.from] lists it in that order. *)
Definition setAdd (s : list string) (x : string) : list string :=
  if decide (x ∈ s) then s else s ++ [x].

Definition arrayFromSet (xs : list string) : list string := foldl setAdd [] xs.

(** [Array.prototype.sort(cmp)]: a stable sort; [a] is moved before [b]
    only when [cmp a b] is negative.  The model is the stable insertion
    sort, with which every stable sort agrees on a comparator that is a
    consistent ordering of the elements; for any other comparator the host
    is free to return any order. *)
Fixpoint sortInsert {A} (cmp : A → A → Qc) (x : A) (l : list A) : list A :=
  match l with
  | [] => [x]
  | y :: l' => if decide (cmp x y < 0) then x :: l else y :: sortInsert cmp x l'
  end.

Definition sortBy {A} (cmp : A → A → Qc) (l : list A) : list A :=
  foldl (λ acc x, sortInsert cmp x acc) [] l.

(** A three-way comparison as the number a comparator returns. *)
Definition cmpNum (c : comparison) : Qc :=
  match c with Lt => - 1 | Eq => 0 | Gt => 1 end.

(** [xs.sort()] without a comparator orders strings by their character
    codes. *)
Definition defaultCompare (a b : string) : Qc := cmpNum (String.compare a b).

(** [forEach] with a body that may raise. *)
Fixpoint forEachM {S A} (f : S → A → option S) (s : S) (l : list A) : option S :=
  match l with
  | [] => Some s
  | x :: l' => s' ← f s x; forEachM f s' l'
  end.

(** ** Pivot engine *)

(** [keyof NormalizedRow] *)
Inductive Field :=
  | f_id | f_date | f_store_name | f_category_name | f_unit_raw | f_unit_type
  | f_pieces_per_kg | f_weight_kg | f_revenue_rub | f_checks | f_pieces
  | f_week | f_month | f_quarter | f_year
  | f_atv | f_upt | f_avg_price_per_kg | f_avg_price_per_piece.

Record Aux := { rev : Qc; chk : Qc; pcs : Qc }.

Record Pivot := {
  rowKeys : list string;
  colKeys : list string;
  matrix : gmap string (gmap string Qc);
  matrixAux : gmap string (gmap string Aux);
}.

(** [rowKeys.forEach(r => { m[r] = {}; colKeys.forEach(c => m[r][c] = v) })] *)
Definition initCols {V} (v : V) (colKeys : list string) : gmap string V :=
  foldl (λ row c, <[c := v]> row) ∅ colKeys.

Definition initMatrix {V} (v : V) (rowKeys colKeys : list string)
  : gmap string (gmap string V) :=
  foldl (λ m r, <[r := initCols v colKeys]> m) ∅ rowKeys.

Definition isSumMeasure (pivotVal : PivotValueType) : bool :=
  match pivotVal with
  | sum_revenue | sum_checks | sum_pieces | sum_weight => true
  | calc_atv | calc_upt => false
  end.

Record RowAcc := { rowTotal : Qc; rowRev : Qc; rowChk : Qc; rowPcs : Qc }.

Section PivotEngine.
Context `{JsHost}.

(** [String(d[f])] *)
Definition fieldString (f : Field) (d : NormalizedRow) : string :=
  match f with
  | f_id => id d
  | f_date => date d
  | f_store_name => store_name d
  | f_category_name => category_name d
  | f_unit_raw => unit_raw d
  | f_unit_type => unitTypeString (unit_type d)
  | f_pieces_per_kg => numToString (pieces_per_kg d)
  | f_weight_kg => numToString (weight_kg d)
  | f_revenue_rub => numToString (revenue_rub d)
  | f_checks => numToString (checks d)
  | f_pieces => numToString (pieces d)
  | f_week => numToString (week d)
  | f_month => numToString (month d)
  | f_quarter => numToString (quarter d)
  | f_year => numToString (year d)
  | f_atv => numToString (atv d)
  | f_upt => numToString (upt d)
  | f_avg_price_per_kg => numToString (avg_price_per_kg d)
  | f_avg_price_per_piece => numToString (avg_price_per_piece d)
  end.

(** The comparator of the column keys: numeric when both keys are
    numbers, the collation otherwise. *)
Definition colCompare (a b : string) : Qc :=
  match Number a, Number b with
  | Some x, Some y => x - y
  | _, _ => cmpNum (localeCompare a b)
  end.

Definition pivotRowKeys (filteredData : list NormalizedRow) (pivotRow : Field) : list string :=
  sortBy defaultCompare (arrayFromSet (map (fieldString pivotRow) filteredData)).

Definition pivotColKeys (filteredData : list NormalizedRow) (pivotCol : Field) : list string :=
  sortBy colCompare (arrayFromSet (map (fieldString pivotCol) filteredData)).

(** The body of [filteredData.forEach] in [pivotTable].  Reading
    [matrixAux[r][c].rev] raises when the cell is missing; a missing
    [matrix[r][c]] under [+=] would give NaN and is a failure here. *)
Definition pivotStep (pivotRow pivotCol : Field) (pivotVal : PivotValueType)
    (st : gmap string (gmap string Qc) * gmap string (gmap string Aux))
    (d : NormalizedRow)
  : option (gmap string (gmap string Qc) * gmap string (gmap string Aux)) :=
  let '(matrix, matrixAux) := st in
  let r := fieldString pivotRow d in
  let c := fieldString pivotCol d in
  auxRow ← matrixAux !! r;
  cell ← auxRow !! c;
  let cell' := {| rev := rev cell + revenue_rub d;
                  chk := chk cell + checks d;
                  pcs := pcs cell + pieces d |} in
  let matrixAux' := <[r := <[c := cell']> auxRow]> matrixAux in
  mRow ← matrix !! r;
  v ← match pivotVal with
      | sum_revenue => old ← mRow !! c; Some (old + revenue_rub d)
      | sum_checks => old ← mRow !! c; Some (old + checks d)
      | sum_pieces => old ← mRow !! c; Some (old + pieces d)
      | sum_weight => old ← mRow !! c; Some (old + weight_kg d)
      | calc_atv => ratio (rev cell') (chk cell')
      | calc_upt => ratio (pcs cell') (chk cell')
      end;
  Some (<[r := <[c := v]> mRow]> matrix, matrixAux').

Definition pivotTable (filteredData : list NormalizedRow)
    (pivotRow pivotCol : Field) (pivotVal : PivotValueType) : option Pivot :=
  let rowKeys := pivotRowKeys filteredData pivotRow in
  let colKeys := pivotColKeys filteredData pivotCol in
  let matrix := initMatrix 0 rowKeys colKeys in
  let matrixAux := initMatrix {| rev := 0; chk := 0; pcs := 0 |} rowKeys colKeys in
  st ← forEachM (pivotStep pivotRow pivotCol pivotVal) (matrix, matrixAux) filteredData;
  Some {| rowKeys := rowKeys; colKeys := colKeys;
          matrix := st.1; matrixAux := st.2 |}.

(** [pivotTable.matrix[r][c] || 0], the value a table cell shows. *)
Definition cellValue (pt : Pivot) (r c : string) : option Qc :=
  mRow ← matrix pt !! r;
  Some (default 0 (mRow !! c)).

(** One cell of a table row: the body of [pivotTable.colKeys.map] inside
    the row for [r]. *)
Definition rowCell (pt : Pivot) (pivotVal : PivotValueType) (r : string)
    (acc : RowAcc) (c : string) : option RowAcc :=
  val ← cellValue pt r c;
  aRow ← matrixAux pt !! r;
  aux ← aRow !! c;
  Some {| rowRev := rowRev acc + rev aux;
          rowChk := rowChk acc + chk aux;
          rowPcs := rowPcs acc + pcs aux;
          rowTotal := if isSumMeasure pivotVal then rowTotal acc + val
                      else rowTotal acc |}.

(** The number in the total column of the row for [r], before it is
    formatted. *)
Definition finalTotal (pt : Pivot) (pivotVal : PivotValueType) (r : string) : option Qc :=
  acc ← forEachM (rowCell pt pivotVal r)
        {| rowTotal := 0; rowRev := 0; rowChk := 0; rowPcs := 0 |} (colKeys pt);
  match pivotVal with
  | calc_atv => ratio (rowRev acc) (rowChk acc)
  | calc_upt => ratio (rowPcs acc) (rowChk acc)
  | _ => Some (rowTotal acc)
  end.
End PivotEngine.

(** ** Series aggregator *)

(** [map[k] = (map[k] || 0) + x] on an object used as a dictionary whose
    entries are listed in insertion order ([Object.entries] lists keys that
    are array indices first; no property below depends on the order of the
    entries).  A stored zero and a missing key both read as [0]. *)
Fixpoint addTo (k : string) (x : Qc) (m : list (string * Qc)) : list (string * Qc) :=
  match m with
  | [] => [(k, 0 + x)]
  | (k', v) :: m' =>
      if decide (k' = k) then (k', (if decide (v = 0) then 0 else v) + x) :: m'
      else (k', v) :: addTo k x m'
  end.

(** The [{ time, categories }] pair of [chartData]; [categories] is also a
    field of [Filters], hence the prefix. *)
Record ChartData := {
  chart_time : list (string * Qc);
  chart_categories : list (string * Qc);
}.

Section SeriesAggregator.
Context `{JsHost}.

Definition chartData (filteredData : list NormalizedRow) : ChartData :=
  let timeMap := foldl (λ m d, addTo (date d) (revenue_rub d) m) [] filteredData in
  let catMap := foldl (λ m d, addTo (category_name d) (revenue_rub d) m) [] filteredData in
  {| chart_time := sortBy (λ a b, cmpNum (localeCompare a.1 b.1)) timeMap;
     chart_categories := take 10 (sortBy (λ a b, b.2 - a.2) catMap) |}.
End SeriesAggregator.

(** ** The specification's wording, for comparison with the code *)

(** A ratio guarded against a zero divisor only. *)
Definition spec_ratio (num den : Qc) : Qc :=
  if decide (den = 0) then 0 else num / den.

(** The filter predicate as the specification words it. *)
Definition spec_passes (f : Filters) (d : NormalizedRow) : Prop :=
  (dateFrom f = "" ∨ String.leb (dateFrom f) (date d) = true) ∧
  (dateTo f = "" ∨ String.leb (date d) (dateTo f) = true) ∧
  (stores f = [] ∨ store_name d ∈ stores f) ∧
  (categories f = [] ∨ category_name d ∈ categories f) ∧
  (unitTypes f = [] ∨ unitTypeString (unit_type d) ∈ unitTypes f).

(** Unit-type inference as the specification words it: either label may
    carry either spelling. *)
Definition spec_unitType (unitTypeClean rawUnit : string) : UnitType :=
  if includes (toLowerCase unitTypeClean) "kg" || includes (toLowerCase unitTypeClean) "кг"
     || includes (toLowerCase rawUnit) "kg" || includes (toLowerCase rawUnit) "кг"
  then unit_kg else unit_pcs.

(** Sums of a measure over a list of rows. *)
Definition sumOf (f : NormalizedRow → Qc) (l : list NormalizedRow) : Qc :=
  foldr (λ d acc, f d + acc) 0 l.

Definition sumQc (l : list Qc) : Qc := foldr Qcplus 0 l.

(** The raw field a sum measure accumulates. *)
Definition measureField (pivotVal : PivotValueType) (d : NormalizedRow) : Qc :=
  match pivotVal with
  | sum_revenue => revenue_rub d
  | sum_checks => checks d
  | sum_pieces => pieces d
  | sum_weight => weight_kg d
  | calc_atv | calc_upt => 0
  end.

(** The headline total the KPI aggregator reports for that field. *)
Definition measureTotal (pivotVal : PivotValueType) (s : Stats) : Qc :=
  match pivotVal with
  | sum_revenue => st_revenue s
  | sum_checks => st_checks s
  | sum_pieces => st_pieces s
  | sum_weight => st_weight s
  | calc_atv | calc_upt => 0
  end.

(** The source rows behind one pivot row and behind one pivot cell. *)
Definition rowsOf `{JsHost} (pivotRow : Field) (r : string) (l : list NormalizedRow)
  : list NormalizedRow :=
  filter (λ d, fieldString pivotRow d = r) l.

Definition cellRows `{JsHost} (pivotRow pivotCol : Field) (r c : string)
    (l : list NormalizedRow) : list NormalizedRow :=
  filter (λ d, fieldString pivotCol d = c) (rowsOf pivotRow r l).

(** [v[k]] on a value that is neither [undefined] nor [null]. *)
Definition prop (v : JsVal) (k : string) : JsVal := default JUndefined (getProp v k).

(** The values a property can be read from. *)
Definition usable (v : JsVal) : Prop := v ≠ JUndefined ∧ v ≠ JNull.

(** A row whose properties all convert to strings; rows of scalars, the
    raw rows of the specification, are among them. *)
Definition plainRow (row : JsVal) : Prop :=
  match row with
  | JObj o => map_Forall (λ _ v, convertible v = true) o
  | _ => True
  end.

(** An element of the ingested array that the normaliser accepts: its
    [json] property can be read and the row it resolves to is plain. *)
Definition rawItem `{JsHost} (item : JsVal) : Prop :=
  ∃ row, resolveRow item = Some row ∧ plainRow row.

(** The results of the two coercions on values that convert. *)
Definition cleanText `{JsHost} (val : JsVal) : string := default "" (cleanString val).

Definition parsedNum `{JsHost} (val : JsVal) : Qc := default 0 (parseNum val).

(** The canonical row of a plain raw row; [normalizeRow_resolved] shows it
    is what [normalizeRow] returns. *)
Definition normalizedOf `{JsHost} (idx : nat) (row : JsVal) : NormalizedRow :=
  let revenue := parsedNum (jsOr (jsOr (prop row "revenue_rub") (prop row "Выручка, ₽"))
                                 (prop row "revenue_rub_raw")) in
  let checks := parsedNum (jsOr (prop row "checks") (prop row "Чеки, шт.")) in
  let pieces := parsedNum (jsOr (jsOr (prop row "pieces") (prop row "Штуки"))
                                (prop row "peaces")) in
  let weight := parsedNum (jsOr (prop row "weight_kg") (prop row "Вес, кг")) in
  let rawUnit := cleanText (jsOr (prop row "unit_raw") (prop row "Шт. в кг")) in
  let unitTypeClean := toLowerCase (cleanText (prop row "unit_type")) in
  {| id := (let i := cleanText (prop row "id") in
            if String.eqb i "" then "row-" ++ pretty idx else i);
     date := cleanText (jsOr (prop row "date") (prop row "Дата"));
     store_name := cleanText (jsOr (jsOr (prop row "store_name") (prop row "Магазин"))
                                   (JStr "Неизвестно"));
     category_name :=
       cleanText (jsOr (jsOr (prop row "category_name") (prop row "Категория товара"))
                       (JStr "Прочее"));
     unit_raw := rawUnit;
     unit_type := if includes unitTypeClean "kg" || includes unitTypeClean "кг"
                     || includes (toLowerCase rawUnit) "кг"
                  then unit_kg else unit_pcs;
     pieces_per_kg := parsedNum (prop row "pieces_per_kg");
     weight_kg := weight;
     revenue_rub := revenue;
     checks := checks;
     pieces := pieces;
     week := parsedNum (prop row "week");
     month := parsedNum (prop row "month");
     quarter := parsedNum (prop row "quarter");
     year := (let y := parsedNum (prop row "year") in
              if decide (y = 0) then Qc_of_Z 2025 else y);
     atv := guardedRatio revenue checks;
     upt := guardedRatio pieces checks;
     avg_price_per_kg := guardedRatio revenue weight;
     avg_price_per_piece := guardedRatio revenue pieces |}.

(** The values the claim about alias chains names as unusable. *)
Definition blank (v : JsVal) : Prop := v = JNum 0 ∨ v = JStr "" ∨ v = JNull.

Definition emptyFilters : Filters :=
  {| dateFrom := ""; dateTo := ""; stores := []; categories := []; unitTypes := [] |}.

(** ** The pivot state read as functions of the two keys

    The proofs follow the two nested dictionaries of [pivotTable] through
    the functions they tabulate on the row keys and the column keys. *)

Definition Tabulates {V} (RK CK : list string) (m : gmap string (gmap string V))
    (g : string → string → V) : Prop :=
  ∀ r, r ∈ RK → ∃ row, m !! r = Some row ∧ ∀ c, c ∈ CK → row !! c = Some (g r c).

Definition upd {V} (g : string → string → V) (r c : string) (v : V)
  : string → string → V :=
  λ r' c', if decide (r' = r ∧ c' = c) then v else g r' c'.

Definition addAux (a : Aux) (d : NormalizedRow) : Aux :=
  {| rev := rev a + revenue_rub d; chk := chk a + checks d; pcs := pcs a + pieces d |}.

Definition stepValue (pivotVal : PivotValueType) (old : Qc) (cell : Aux)
    (d : NormalizedRow) : Qc :=
  match pivotVal with
  | sum_revenue => old + revenue_rub d
  | sum_checks => old + checks d
  | sum_pieces => old + pieces d
  | sum_weight => old + weight_kg d
  | calc_atv => guardedRatio (rev cell) (chk cell)
  | calc_upt => guardedRatio (pcs cell) (chk cell)
  end.

Definition stepFun `{JsHost} (pivotRow pivotCol : Field) (pivotVal : PivotValueType)
    (g : (string → string → Qc) * (string → string → Aux)) (d : NormalizedRow)
  : (string → string → Qc) * (string → string → Aux) :=
  let r := fieldString pivotRow d in
  let c := fieldString pivotCol d in
  let cell := addAux (g.2 r c) d in
  (upd g.1 r c (stepValue pivotVal (g.1 r c) cell d), upd g.2 r c cell).

(** [matrixAux[r][c]], the accumulators of one cell. *)
Definition auxCell (pt : Pivot) (r c : string) : option Aux :=
  aRow ← matrixAux pt !! r; aRow !! c.

(** What a row contributes to the totals of its pivot row: its row key and
    the three accumulated measures, whatever its column key. *)
Definition rowProj `{JsHost} (pivotRow : Field) (d : NormalizedRow)
  : string * Qc * Qc * Qc :=
  (fieldString pivotRow d, revenue_rub d, checks d, pieces d).

(** Numerically ascending, on keys that are numbers. *)
Definition numLe `{JsHost} (a b : string) : Prop :=
  match Number a, Number b with
  | Some x, Some y => x ≤ y
  | _, _ => False
  end.

(** Ascending in the collation of the host. *)
Definition collateLe `{JsHost} (a b : string) : Prop := localeCompare a b ≠ Gt.

(** What the total column of a pivot row holds, by measure, in terms of
    the source rows of that pivot row. *)
Definition rowTotalOf (pivotVal : PivotValueType) (rows : list NormalizedRow) : Qc :=
  match pivotVal with
  | calc_atv => guardedRatio (sumOf revenue_rub rows) (sumOf checks rows)
  | calc_upt => guardedRatio (sumOf pieces rows) (sumOf checks rows)
  | _ => sumOf (measureField pivotVal) rows
  end.

(** [b] is not moved before [a] by the comparator. *)
Definition inOrder {A} (cmp : A → A → Qc) (a b : A) : Prop := ¬ cmp b a < 0.

(** ** A reference host, for evaluating the engine on concrete data *)

(** Up to [fuel] digits of the decimal expansion of [r / d], [0 <= r < d]. *)
Fixpoint fracDigits (fuel : nat) (r d : Z) : string :=
  match fuel with
  | O => ""
  | S fuel' =>
      if (r =? 0)%Z then ""
      else String (ascii_of_nat (48 + Z.to_nat (10 * r / d)))
                  (fracDigits fuel' ((10 * r) mod d)%Z d)
  end.

(** Decimal notation: exact for integers and for short decimal fractions. *)
Definition decimalString (q : Qc) : string :=
  let n := Qnum q in
  let d := Zpos (Qden q) in
  let a := Z.abs n in
  (if (n <? 0)%Z then "-" else "")
  ++ pretty (Z.to_N (a / d))
  ++ (if (a mod d =? 0)%Z then "" else "." ++ fracDigits 17 (a mod d)%Z d).

(** Plain decimal literals, with white space trimmed and the empty string
    read as zero, as [Number] reads them. *)
Definition decimalNumber (s : string) : option Qc :=
  let t := trim s in
  if String.eqb t "" then Some 0
  else
    let '(neg, s1) := match t with
                      | String "-"%char r => (true, r)
                      | String "+"%char r => (false, r)
                      | _ => (false, t)
                      end in
    let '(ip, s2) := takeDigits s1 in
    let '(fp, s3) := match s2 with
                     | String "."%char r => takeDigits r
                     | _ => (EmptyString, s2)
                     end in
    if (String.eqb ip "" && String.eqb fp "") || negb (String.eqb s3 "") then None
    else
      let v := Qc_of_Z (digitsValue 0 (ip ++ fp))
               / Qc_of_Z (10 ^ Z.of_nat (String.length fp)) in
      Some (if neg then - v else v).

Lemma compare_not_Gt_trans (a b c : string) :
  String.compare a b ≠ Gt → String.compare b c ≠ Gt → String.compare a c ≠ Gt.
Proof.
  intros Hab Hbc.
  destruct (String.compare a b) eqn:E1; [| |done].
  - apply OrderedTypeEx.String_as_OT.cmp_eq in E1. by subst b.
  - destruct (String.compare b c) eqn:E2; [| |done].
    + apply OrderedTypeEx.String_as_OT.cmp_eq in E2. subst c. by rewrite E1.
    + apply OrderedTypeEx.String_as_OT.cmp_lt in E1, E2.
      pose proof (OrderedTypeEx.String_as_OT.lt_trans _ _ _ E1 E2) as Hac.
      apply OrderedTypeEx.String_as_OT.cmp_lt in Hac.
      unfold OrderedTypeEx.String_as_OT.cmp in Hac. by rewrite Hac.
Qed.

Definition refHost : JsHost := {|
  numToString := decimalString;
  Number := decimalNumber;
  localeCompare := String.compare;
  localeCompare_antisym := String.compare_antisym;
  localeCompare_trans := compare_not_Gt_trans;
|}.

(** Numerals for concrete rows. *)
Definition num (z : Z) : Qc := Qc_of_Z z.

(** A canonical row that carries only what the aggregations read. *)
Definition mkRow (date store category : string) (u : UnitType)
    (month revenue checks pieces weight : Z) : NormalizedRow :=
  {| id := ""; date := date; store_name := store; category_name := category;
     unit_raw := ""; unit_type := u; pieces_per_kg := 0;
     weight_kg := num weight; revenue_rub := num revenue; checks := num checks;
     pieces := num pieces; week := 0; month := num month; quarter := 0;
     year := num 2025; atv := 0; upt := 0; avg_price_per_kg := 0;
     avg_price_per_piece := 0 |}.

(** Four sales rows over two categories and three months. *)
Definition sampleRows : list NormalizedRow :=
  [ mkRow "2025-07-01" "A" "c1" unit_kg 7 100 10 20 5;
    mkRow "2025-08-01" "B" "c1" unit_kg 10 50 5 7 1;
    mkRow "2025-08-02" "A" "c2" unit_pcs 9 30 3 7 1;
    mkRow "2025-08-02" "A" "c2" unit_pcs 9 30 3 7 1 ].

(** The same rows with the month-9 column split in two: the last row is
    moved to month 11. *)
Definition splitRows : list NormalizedRow :=
  [ mkRow "2025-07-01" "A" "c1" unit_kg 7 100 10 20 5;
    mkRow "2025-08-01" "B" "c1" unit_kg 10 50 5 7 1;
    mkRow "2025-08-02" "A" "c2" unit_pcs 9 30 3 7 1;
    mkRow "2025-08-02" "A" "c2" unit_pcs 11 30 3 7 1 ].

(** Three stores, two of them named by numbers. *)
Definition mixedStores : list NormalizedRow :=
  [ mkRow "2025-07-01" "10" "c1" unit_kg 7 100 10 20 5;
    mkRow "2025-07-01" "9" "c1" unit_kg 7 100 10 20 5;
    mkRow "2025-07-01" "a" "c1" unit_kg 7 100 10 20 5 ].

(** Two categories with the same revenue. *)
Definition tiedCategories : list NormalizedRow :=
  [ mkRow "2025-07-01" "A" "c1" unit_kg 7 100 10 20 5;
    mkRow "2025-07-02" "A" "c2" unit_kg 7 100 10 20 5 ].

(** A row whose checks are negative, as [parseNum] returns for "-10". *)
Definition refundRows : list NormalizedRow :=
  [ mkRow "2025-07-01" "A" "c1" unit_kg 7 100 (-10) 20 5 ].

(** A raw object from its entries. *)
Definition obj (kvs : list (string * JsVal)) : JsVal := JObj (list_to_map kvs).

(** ** Ingestion and the view helpers of [App] *)

Section Ingestion.
Context `{JsHost}.

(** The part of [loadData] between the response body and [setData]:
    [Array.isArray(result) ? result : (result.rows || [])], the check for
    an empty row set and the normaliser.  [None] is any exception, which
    the [catch] of [loadData] turns into an error message: the explicit
    "no data" error, a [TypeError] on reading [rows] of [null], and the
    [TypeError] of calling [map] on a value that is no array. *)
Definition ingest (result : JsVal) : option (list NormalizedRow) :=
  rawRows ← match result with
            | JArr _ => Some result
            | _ => rows ← getProp result "rows"; Some (jsOr rows (JArr []))
            end;
  match rawRows with
  | JArr [] => None
  | JArr l => normalizeData l
  | _ => None
  end.
End Ingestion.

(** [Array.from(new Set(data.map(d => d.store_name))).sort()] and the same
    for the categories: the options of the two multi-selects. *)
Definition uniqueStores (data : list NormalizedRow) : list string :=
  sortBy defaultCompare (arrayFromSet (map store_name data)).

Definition uniqueCats (data : list NormalizedRow) : list string :=
  sortBy defaultCompare (arrayFromSet (map category_name data)).

(** The [onChange] handlers of the store and category check boxes:
    [checked ? [...xs, s] : xs.filter(x => x !== s)]. *)
Definition toggle (checked : bool) (s : string) (xs : list string) : list string :=
  if checked then (xs ++ [s])%list else filter (λ x, x ≠ s) xs.

Definition toggleStore (checked : bool) (s : string) (f : Filters) : Filters :=
  {| dateFrom := dateFrom f; dateTo := dateTo f;
     stores := toggle checked s (stores f);
     categories := categories f; unitTypes := unitTypes f |}.

Definition toggleCategory (checked : bool) (c : string) (f : Filters) : Filters :=
  {| dateFrom := dateFrom f; dateTo := dateTo f;
     stores := stores f;
     categories := toggle checked c (categories f); unitTypes := unitTypes f |}.

(** [String(m).padStart(2, '0')] for a month number. *)
Definition pad2 (m : nat) : string :=
  let s := pretty m in
  match String.length s with
  | 0%nat => "00" ++ s
  | 1%nat => "0" ++ s
  | _ => s
  end.

(** The month buttons: the bounds become the first and the "31st" of the
    month of 2025. *)
Definition monthPreset (m : nat) (f : Filters) : Filters :=
  {| dateFrom := "2025-" ++ pad2 m ++ "-01"; dateTo := "2025-" ++ pad2 m ++ "-31";
     stores := stores f; categories := categories f; unitTypes := unitTypes f |}.

(** The month buttons the side bar offers. *)
Definition presetMonths : list nat := [7; 8; 9; 10; 11; 12]%nat.

(** A calendar date in the [YYYY-MM-DD] form of [NormalizedRow.date]. *)
Definition isoDate (y m d : nat) : string :=
  pretty y ++ "-" ++ pad2 m ++ "-" ++ pad2 d.

(** The characters that survive the cleaning of [parseNum] or steer it:
    digits, the full stop, the minus sign and the comma. *)
Definition numericChar (c : ascii) : bool :=
  isDigit c || Ascii.eqb c "." || Ascii.eqb c "-" || Ascii.eqb c ",".

(** Every character of [s] satisfies [q]. *)
Fixpoint allChars (q : ascii → bool) (s : string) : bool :=
  match s with
  | EmptyString => true
  | String c s' => q c && allChars q s'
  end.

(** The characters [parseNum] keeps at its last step. *)
Definition keptChar (c : ascii) : bool :=
  isDigit c || Ascii.eqb c "." || Ascii.eqb c "-".

(** The value a ratio measure gives to a cell with accumulators [a]. *)
Definition calcOf (pivotVal : PivotValueType) (a : Aux) : Qc :=
  match pivotVal with
  | calc_atv => guardedRatio (rev a) (chk a)
  | calc_upt => guardedRatio (pcs a) (chk a)
  | _ => 0
  end.

(** Two raw rows, the second in the [json] wrapper and without an id. *)
Definition rawSample : list JsVal :=
  [ obj [("id", JStr "a1"); ("revenue_rub", JStr "1 234,50"); ("checks", JNum (num 10));
         ("Магазин", JStr "A"); ("year", JNum (num 2024))];
    obj [("json", obj [("Выручка, ₽", JNum (num 50)); ("Чеки, шт.", JStr "5")])] ].

(** * Properties *)

(** Closed equations between rationals, after evaluation. *)
Ltac qc_eval :=
  vm_compute;
  first [ apply Qc_is_canon; reflexivity
        | apply (f_equal Some); apply Qc_is_canon; reflexivity ].

(** Membership in an evaluated list. *)
Ltac in_eval := apply (bool_decide_unpack _); vm_compute; exact I.


(** ** Ratios and sums *)

Lemma ratio_eq (n d : Qc) : ratio n d = Some (guardedRatio n d).
Proof.
  unfold ratio, guardedRatio, divide.
  destruct (decide (0 < d)) as [Hd|Hd]; [|done].
  destruct (decide (d = 0)) as [->|]; [|done].
  by apply Qclt_not_eq in Hd.
Qed.

Lemma sumOf_app f l1 l2 : sumOf f (l1 ++ l2) = sumOf f l1 + sumOf f l2.
Proof.
  induction l1 as [|d l1 IH]; simpl.
  - by rewrite Qcplus_0_l.
  - rewrite IH. ring.
Qed.

Lemma sumQc_map_plus {A} (a b : A → Qc) (ks : list A) :
  sumQc (map (λ k, a k + b k) ks) = sumQc (map a ks) + sumQc (map b ks).
Proof.
  induction ks as [|k ks IH]; simpl.
  - ring.
  - rewrite IH. ring.
Qed.

Lemma sumQc_map_zero {A} (ks : list A) : sumQc (map (λ _, 0) ks) = 0.
Proof. induction ks as [|k ks IH]; simpl; [done|]. rewrite IH. ring. Qed.

Lemma sumQc_map_ext {A} (a b : A → Qc) (ks : list A) :
  (∀ k, k ∈ ks → a k = b k) → sumQc (map a ks) = sumQc (map b ks).
Proof.
  induction ks as [|k ks IH]; intros Hab; simpl; [done|].
  rewrite Hab by left. rewrite IH; [done|]. intros k' Hk'. apply Hab. by right.
Qed.

(** Only the key of the row itself contributes to an indicator sum over a
    duplicate-free key list. *)
Lemma sumQc_indicator (x : Qc) (k0 : string) (ks : list string) :
  NoDup ks → k0 ∈ ks →
  sumQc (map (λ k, if decide (k0 = k) then x else 0) ks) = x.
Proof.
  induction 1 as [|k ks Hk Hnd IH]; intros Hin; [by apply elem_of_nil in Hin|].
  simpl. destruct (decide (k0 = k)) as [->|Hne].
  - rewrite (sumQc_map_ext _ (λ _, 0)).
    + rewrite sumQc_map_zero. ring.
    + intros k' Hk'. destruct (decide (k = k')) as [->|]; [done|done].
  - apply elem_of_cons in Hin as [?|Hin]; [done|]. rewrite IH by done. ring.
Qed.

(** Grouping the rows by a key and adding the groups up gives the sum over
    all rows. *)
Lemma sum_partition (key : NormalizedRow → string) (f : NormalizedRow → Qc)
    (ks : list string) (l : list NormalizedRow) :
  NoDup ks → (∀ d, d ∈ l → key d ∈ ks) →
  sumQc (map (λ k, sumOf f (filter (λ d, key d = k) l)) ks) = sumOf f l.
Proof.
  intros Hnd. induction l as [|d l IH]; intros Hin.
  - apply sumQc_map_zero.
  - rewrite (sumQc_map_ext _
      (λ k, (if decide (key d = k) then f d else 0)
            + sumOf f (filter (λ d, key d = k) l))).
    + rewrite sumQc_map_plus, IH, sumQc_indicator; [done|done| |].
      * apply Hin. by left.
      * intros d' Hd'. apply Hin. by right.
    + intros k _. rewrite filter_cons.
      destruct (decide (key d = k)); simpl; [done|ring].
Qed.

Lemma total_sums (l : list NormalizedRow) :
  t_rev (total l) = sumOf revenue_rub l ∧ t_chk (total l) = sumOf checks l ∧
  t_pcs (total l) = sumOf pieces l ∧ t_wgt (total l) = sumOf weight_kg l.
Proof.
  unfold total.
  cut (∀ acc,
    let t := foldl (λ acc curr,
                 {| t_rev := t_rev acc + revenue_rub curr;
                    t_chk := t_chk acc + checks curr;
                    t_pcs := t_pcs acc + pieces curr;
                    t_wgt := t_wgt acc + weight_kg curr |}) acc l in
    t_rev t = t_rev acc + sumOf revenue_rub l ∧ t_chk t = t_chk acc + sumOf checks l ∧
    t_pcs t = t_pcs acc + sumOf pieces l ∧ t_wgt t = t_wgt acc + sumOf weight_kg l).
  { intros Hgen. destruct (Hgen {| t_rev := 0; t_chk := 0; t_pcs := 0; t_wgt := 0 |})
      as (-> & -> & -> & ->). simpl. by rewrite !Qcplus_0_l. }
  induction l as [|d l IH]; intros acc; simpl.
  - by rewrite !Qcplus_0_r.
  - destruct (IH {| t_rev := t_rev acc + revenue_rub d; t_chk := t_chk acc + checks d;
                    t_pcs := t_pcs acc + pieces d; t_wgt := t_wgt acc + weight_kg d |})
      as (-> & -> & -> & ->). simpl. repeat split; ring.
Qed.

(** ** Sets and sorting *)

Lemma arrayFromSet_spec (xs : list string) :
  NoDup (arrayFromSet xs) ∧ ∀ x, x ∈ arrayFromSet xs ↔ x ∈ xs.
Proof.
  unfold arrayFromSet.
  cut (∀ acc, NoDup acc →
         NoDup (foldl setAdd acc xs) ∧
         ∀ x, x ∈ foldl setAdd acc xs ↔ x ∈ acc ∨ x ∈ xs).
  { intros Hgen. destruct (Hgen [] (NoDup_nil_2)) as [Hnd Hin].
    split; [done|]. intros x. rewrite Hin. set_solver. }
  induction xs as [|y xs IH]; intros acc Hacc; simpl.
  - split; [done|]. set_solver.
  - unfold setAdd at 2 4. destruct (decide (y ∈ acc)) as [Hy|Hy].
    + destruct (IH acc Hacc) as [Hnd Hin]. split; [done|].
      intros x. rewrite Hin. set_solver.
    + assert (NoDup (acc ++ [y])) as Hacc'.
      { apply NoDup_app. repeat split; [done| |apply NoDup_singleton]. set_solver. }
      destruct (IH _ Hacc') as [Hnd Hin]. split; [done|].
      intros x. rewrite Hin. set_solver.
Qed.

Section Sorting.
Context {A : Type} (cmp : A → A → Qc).

Lemma sortInsert_perm x l : sortInsert cmp x l ≡ₚ x :: l.
Proof.
  induction l as [|y l IH]; simpl; [done|].
  destruct (decide (cmp x y < 0)); [done|].
  by rewrite IH, Permutation_swap.
Qed.

Lemma sortBy_perm l : sortBy cmp l ≡ₚ l.
Proof.
  unfold sortBy.
  cut (∀ acc : list A, foldl (λ acc x, sortInsert cmp x acc) acc l ≡ₚ (acc ++ l)%list).
  { intros Hgen. apply Hgen. }
  induction l as [|x l IH]; intros acc; simpl.
  - by rewrite app_nil_r.
  - rewrite IH, sortInsert_perm. simpl. apply Permutation_middle.
Qed.

Lemma sortInsert_Sorted x l :
  (∀ y, y ∈ l → cmp x y < 0 → ¬ cmp y x < 0) →
  Sorted (inOrder cmp) l → Sorted (inOrder cmp) (sortInsert cmp x l).
Proof.
  intros Hasym. induction 1 as [|y l Hl IH Hhd]; simpl.
  - by repeat constructor.
  - destruct (decide (cmp x y < 0)) as [Hlt|Hge].
    + constructor; [by constructor|]. constructor. apply Hasym; [by left|done].
    + constructor.
      * apply IH. intros z Hz. apply Hasym. by right.
      * destruct Hhd as [|z l Hyz]; simpl.
        { by constructor. }
        destruct (decide (cmp x z < 0)); by constructor.
Qed.

Lemma sortBy_Sorted l :
  (∀ x y, x ∈ l → y ∈ l → cmp x y < 0 → ¬ cmp y x < 0) →
  Sorted (inOrder cmp) (sortBy cmp l).
Proof.
  intros Hasym. unfold sortBy.
  cut (∀ acc : list A,
         (∀ x y, x ∈ (acc ++ l)%list → y ∈ (acc ++ l)%list →
                 cmp x y < 0 → ¬ cmp y x < 0) →
              Sorted (inOrder cmp) acc →
              Sorted (inOrder cmp) (foldl (λ acc x, sortInsert cmp x acc) acc l)).
  { intros Hgen. apply Hgen; [|constructor]. intros x y. simpl. apply Hasym. }
  clear Hasym. induction l as [|x l IH]; intros acc Hasym Hacc; simpl; [done|].
  apply IH.
  - intros y z Hy Hz. apply Hasym.
    + rewrite elem_of_app in Hy. rewrite sortInsert_perm in Hy. set_solver.
    + rewrite elem_of_app in Hz. rewrite sortInsert_perm in Hz. set_solver.
  - apply sortInsert_Sorted; [|done]. intros y Hy. apply Hasym; set_solver.
Qed.
End Sorting.

(** Two comparators that agree on the elements of a list sort it alike. *)
Lemma sortBy_ext {A} (cmp cmp' : A → A → Qc) (l : list A) :
  (∀ x y, x ∈ l → y ∈ l → cmp x y = cmp' x y) → sortBy cmp l = sortBy cmp' l.
Proof.
  intros Heq. unfold sortBy.
  cut (∀ acc : list A,
         (∀ x y, x ∈ (acc ++ l)%list → y ∈ (acc ++ l)%list → cmp x y = cmp' x y) →
              foldl (λ acc x, sortInsert cmp x acc) acc l
              = foldl (λ acc x, sortInsert cmp' x acc) acc l).
  { intros Hgen. apply Hgen. intros x y. simpl. apply Heq. }
  clear Heq. induction l as [|x l IH]; intros acc Heq; simpl; [done|].
  assert (sortInsert cmp x acc = sortInsert cmp' x acc) as ->.
  { assert (∀ y, y ∈ acc → cmp x y = cmp' x y) as Hx.
    { intros y Hy. apply Heq; set_solver. }
    clear Heq IH. induction acc as [|y acc IH]; simpl; [done|].
    rewrite Hx by left. rewrite IH; [done|]. intros z Hz. apply Hx. by right. }
  apply IH. intros y z Hy Hz. apply Heq.
  - rewrite elem_of_app, sortInsert_perm in Hy. set_solver.
  - rewrite elem_of_app, sortInsert_perm in Hz. set_solver.
Qed.

(** ** The pivot dictionaries *)

Lemma initCols_lookup {V} (v : V) (CK : list string) (c : string) :
  c ∈ CK → initCols v CK !! c = Some v.
Proof.
  unfold initCols.
  cut (∀ acc : gmap string V, c ∈ CK ∨ acc !! c = Some v →
         foldl (λ row c, <[c := v]> row) acc CK !! c = Some v).
  { intros Hgen Hc. apply Hgen. by left. }
  induction CK as [|c' CK IH]; intros acc Hc; simpl.
  - destruct Hc as [Hc|Hc]; [by apply elem_of_nil in Hc|done].
  - apply IH. destruct (decide (c = c')) as [->|Hne].
    + right. apply lookup_insert_eq.
    + destruct Hc as [Hc|Hc].
      * left. apply elem_of_cons in Hc as [?|?]; [done|done].
      * right. by rewrite lookup_insert_ne by congruence.
Qed.

Lemma initMatrix_Tabulates {V} (v : V) (RK CK : list string) :
  Tabulates RK CK (initMatrix v RK CK) (λ _ _, v).
Proof.
  intros r Hr. exists (initCols v CK). split; [|intros c Hc; by apply initCols_lookup].
  unfold initMatrix. revert Hr.
  cut (∀ acc : gmap string (gmap string V),
         r ∈ RK ∨ acc !! r = Some (initCols v CK) →
         foldl (λ m r, <[r := initCols v CK]> m) acc RK !! r = Some (initCols v CK)).
  { intros Hgen Hr. apply Hgen. by left. }
  induction RK as [|r' RK IH]; intros acc Hr; simpl.
  - destruct Hr as [Hr|Hr]; [by apply elem_of_nil in Hr|done].
  - apply IH. destruct (decide (r = r')) as [->|Hne].
    + right. apply lookup_insert_eq.
    + destruct Hr as [Hr|Hr].
      * left. apply elem_of_cons in Hr as [?|?]; [done|done].
      * right. by rewrite lookup_insert_ne by congruence.
Qed.

Lemma Tabulates_lookup {V} RK CK (m : gmap string (gmap string V)) g r c :
  Tabulates RK CK m g → r ∈ RK → c ∈ CK →
  ∃ row, m !! r = Some row ∧ row !! c = Some (g r c).
Proof. intros Hm Hr Hc. destruct (Hm r Hr) as (row & Hrow & Hcols). eauto. Qed.

Lemma Tabulates_update {V} RK CK (m : gmap string (gmap string V)) g r c row (x : V) :
  Tabulates RK CK m g → m !! r = Some row →
  Tabulates RK CK (<[r := <[c := x]> row]> m) (upd g r c x).
Proof.
  intros Hm Hrow r' Hr'. unfold upd. destruct (decide (r' = r)) as [->|Hne].
  - exists (<[c := x]> row). split; [apply lookup_insert_eq|].
    intros c' Hc'. destruct (decide (c' = c)) as [->|Hnc].
    + rewrite decide_True by done. apply lookup_insert_eq.
    + rewrite decide_False by naive_solver. rewrite lookup_insert_ne by congruence.
      destruct (Hm r Hr') as (row' & Hrow' & Hcols). simplify_eq. by apply Hcols.
  - destruct (Hm r' Hr') as (row' & Hrow' & Hcols). exists row'.
    split; [by rewrite lookup_insert_ne by congruence|].
    intros c' Hc'. rewrite decide_False by naive_solver. by apply Hcols.
Qed.

Section PivotProofs.
Context `{JsHost}.
Context (pivotRow pivotCol : Field) (pivotVal : PivotValueType).
Context (RK CK : list string).

Lemma pivotStep_Tabulates m a gm ga d :
  Tabulates RK CK m gm → Tabulates RK CK a ga →
  fieldString pivotRow d ∈ RK → fieldString pivotCol d ∈ CK →
  ∃ m' a', pivotStep pivotRow pivotCol pivotVal (m, a) d = Some (m', a') ∧
           Tabulates RK CK m' (stepFun pivotRow pivotCol pivotVal (gm, ga) d).1 ∧
           Tabulates RK CK a' (stepFun pivotRow pivotCol pivotVal (gm, ga) d).2.
Proof.
  intros Hm Ha Hr Hc.
  destruct (Tabulates_lookup _ _ _ _ _ _ Ha Hr Hc) as (aRow & HaRow & Hcell).
  destruct (Tabulates_lookup _ _ _ _ _ _ Hm Hr Hc) as (mRow & HmRow & Hold).
  eexists _, _. split; [|split].
  - unfold pivotStep. rewrite HaRow. simpl. rewrite Hcell. simpl.
    rewrite HmRow. simpl.
    assert (match pivotVal with
            | sum_revenue => old ← mRow !! fieldString pivotCol d; Some (old + revenue_rub d)
            | sum_checks => old ← mRow !! fieldString pivotCol d; Some (old + checks d)
            | sum_pieces => old ← mRow !! fieldString pivotCol d; Some (old + pieces d)
            | sum_weight => old ← mRow !! fieldString pivotCol d; Some (old + weight_kg d)
            | calc_atv => ratio (rev (ga (fieldString pivotRow d) (fieldString pivotCol d))
                                 + revenue_rub d)
                                (chk (ga (fieldString pivotRow d) (fieldString pivotCol d))
                                 + checks d)
            | calc_upt => ratio (pcs (ga (fieldString pivotRow d) (fieldString pivotCol d))
                                 + pieces d)
                                (chk (ga (fieldString pivotRow d) (fieldString pivotCol d))
                                 + checks d)
            end
            = Some (stepValue pivotVal
                      (gm (fieldString pivotRow d) (fieldString pivotCol d))
                      (addAux (ga (fieldString pivotRow d) (fieldString pivotCol d)) d) d))
      as ->.
    { destruct pivotVal; simpl; rewrite ?Hold, ?ratio_eq; done. }
    simpl. reflexivity.
  - simpl. by apply Tabulates_update.
  - simpl. by apply Tabulates_update.
Qed.

Lemma forEach_pivotStep l : ∀ m a gm ga,
  Tabulates RK CK m gm → Tabulates RK CK a ga →
  (∀ d, d ∈ l → fieldString pivotRow d ∈ RK ∧ fieldString pivotCol d ∈ CK) →
  ∃ m' a', forEachM (pivotStep pivotRow pivotCol pivotVal) (m, a) l = Some (m', a') ∧
           Tabulates RK CK m' (foldl (stepFun pivotRow pivotCol pivotVal) (gm, ga) l).1 ∧
           Tabulates RK CK a' (foldl (stepFun pivotRow pivotCol pivotVal) (gm, ga) l).2.
Proof.
  induction l as [|d l IH]; intros m a gm ga Hm Ha Hin.
  - simpl. by eexists _, _.
  - destruct (Hin d) as [Hr Hc]; [by left|].
    destruct (pivotStep_Tabulates m a gm ga d Hm Ha Hr Hc) as (m1 & a1 & Hst & Hm1 & Ha1).
    cbn [forEachM foldl]. rewrite Hst. cbn [mbind option_bind].
    destruct (stepFun pivotRow pivotCol pivotVal (gm, ga) d) as [gm1 ga1] eqn:Hstep.
    apply IH; [done|done|]. intros d' Hd'. apply Hin. by right.
Qed.

Lemma cellRows_cons r c d l :
  cellRows pivotRow pivotCol r c (d :: l)
  = if decide (fieldString pivotRow d = r ∧ fieldString pivotCol d = c)
    then d :: cellRows pivotRow pivotCol r c l
    else cellRows pivotRow pivotCol r c l.
Proof.
  unfold cellRows, rowsOf. rewrite filter_cons.
  destruct (decide (fieldString pivotRow d = r)) as [Hr|Hr].
  - rewrite filter_cons. destruct (decide (fieldString pivotCol d = c)) as [Hc|Hc].
    + by rewrite decide_True.
    + by rewrite decide_False by naive_solver.
  - by rewrite decide_False by naive_solver.
Qed.

(** The accumulators of a cell are the sums over the source rows of that
    cell. *)
Lemma foldl_stepFun_aux l : ∀ g r c,
  let a := (foldl (stepFun pivotRow pivotCol pivotVal) g l).2 r c in
  rev a = rev (g.2 r c) + sumOf revenue_rub (cellRows pivotRow pivotCol r c l) ∧
  chk a = chk (g.2 r c) + sumOf checks (cellRows pivotRow pivotCol r c l) ∧
  pcs a = pcs (g.2 r c) + sumOf pieces (cellRows pivotRow pivotCol r c l).
Proof.
  induction l as [|d l IH]; intros g r c; simpl.
  - by rewrite !Qcplus_0_r.
  - destruct (IH (stepFun pivotRow pivotCol pivotVal g d) r c) as (-> & -> & ->).
    rewrite cellRows_cons. simpl. unfold upd.
    destruct (decide (r = fieldString pivotRow d ∧ c = fieldString pivotCol d))
      as [[-> ->]|Hne].
    + rewrite decide_True by done. simpl. repeat split; ring.
    + rewrite decide_False by naive_solver. done.
Qed.

(** Under a sum measure the value of a cell is the sum of the measured
    field over the source rows of that cell. *)
Lemma foldl_stepFun_sum l : isSumMeasure pivotVal = true → ∀ g r c,
  (foldl (stepFun pivotRow pivotCol pivotVal) g l).1 r c
  = g.1 r c + sumOf (measureField pivotVal) (cellRows pivotRow pivotCol r c l).
Proof.
  intros Hsum. induction l as [|d l IH]; intros g r c; simpl.
  - by rewrite Qcplus_0_r.
  - rewrite IH, cellRows_cons. simpl. unfold upd.
    destruct (decide (r = fieldString pivotRow d ∧ c = fieldString pivotCol d))
      as [[-> ->]|Hne].
    + rewrite decide_True by done. destruct pivotVal; try done; simpl; ring.
    + rewrite decide_False by naive_solver. done.
Qed.
End PivotProofs.

(** ** The pivot table as a whole *)

Section PivotTable.
Context `{JsHost}.

Lemma pivotRowKeys_spec data pivotRow :
  NoDup (pivotRowKeys data pivotRow) ∧
  ∀ r, r ∈ pivotRowKeys data pivotRow ↔ ∃ d, d ∈ data ∧ fieldString pivotRow d = r.
Proof.
  unfold pivotRowKeys.
  destruct (arrayFromSet_spec (map (fieldString pivotRow) data)) as [Hnd Hin].
  split.
  - by rewrite sortBy_perm.
  - intros r. rewrite sortBy_perm, Hin, list_elem_of_fmap. naive_solver.
Qed.

Lemma pivotColKeys_spec data pivotCol :
  NoDup (pivotColKeys data pivotCol) ∧
  ∀ c, c ∈ pivotColKeys data pivotCol ↔ ∃ d, d ∈ data ∧ fieldString pivotCol d = c.
Proof.
  unfold pivotColKeys.
  destruct (arrayFromSet_spec (map (fieldString pivotCol) data)) as [Hnd Hin].
  split.
  - by rewrite sortBy_perm.
  - intros r. rewrite sortBy_perm, Hin, list_elem_of_fmap. naive_solver.
Qed.

(** The table is always built, and its two dictionaries tabulate the fold
    of [stepFun] over the rows. *)
Lemma pivotTable_Tabulates data pivotRow pivotCol pivotVal :
  let g := foldl (stepFun pivotRow pivotCol pivotVal)
             (λ _ _, 0, λ _ _, {| rev := 0; chk := 0; pcs := 0 |}) data in
  ∃ pt, pivotTable data pivotRow pivotCol pivotVal = Some pt ∧
        rowKeys pt = pivotRowKeys data pivotRow ∧
        colKeys pt = pivotColKeys data pivotCol ∧
        Tabulates (rowKeys pt) (colKeys pt) (matrix pt) g.1 ∧
        Tabulates (rowKeys pt) (colKeys pt) (matrixAux pt) g.2.
Proof.
  intros g. unfold pivotTable.
  destruct (forEach_pivotStep pivotRow pivotCol pivotVal
              (pivotRowKeys data pivotRow) (pivotColKeys data pivotCol) data
              (initMatrix 0 (pivotRowKeys data pivotRow) (pivotColKeys data pivotCol))
              (initMatrix {| rev := 0; chk := 0; pcs := 0 |}
                 (pivotRowKeys data pivotRow) (pivotColKeys data pivotCol))
              (λ _ _, 0) (λ _ _, {| rev := 0; chk := 0; pcs := 0 |}))
    as (m' & a' & Hfold & Hm' & Ha').
  - apply initMatrix_Tabulates.
  - apply initMatrix_Tabulates.
  - intros d Hd. split.
    + apply pivotRowKeys_spec. eauto.
    + apply pivotColKeys_spec. eauto.
  - rewrite Hfold. simpl. eexists. split; [reflexivity|]. simpl. done.
Qed.

(** The loop over the columns inside one table row. *)
Lemma forEach_rowCell pt pivotVal gm ga r :
  Tabulates (rowKeys pt) (colKeys pt) (matrix pt) gm →
  Tabulates (rowKeys pt) (colKeys pt) (matrixAux pt) ga →
  r ∈ rowKeys pt →
  ∀ cs, (∀ c, c ∈ cs → c ∈ colKeys pt) → ∀ acc,
  ∃ acc', forEachM (rowCell pt pivotVal r) acc cs = Some acc' ∧
    rowRev acc' = rowRev acc + sumQc (map (λ c, rev (ga r c)) cs) ∧
    rowChk acc' = rowChk acc + sumQc (map (λ c, chk (ga r c)) cs) ∧
    rowPcs acc' = rowPcs acc + sumQc (map (λ c, pcs (ga r c)) cs) ∧
    rowTotal acc' = rowTotal acc
                    + (if isSumMeasure pivotVal then sumQc (map (gm r) cs) else 0).
Proof.
  intros Hm Ha Hr. induction cs as [|c cs IH]; intros Hcs acc.
  - exists acc. simpl. destruct (isSumMeasure pivotVal); by rewrite !Qcplus_0_r.
  - assert (c ∈ colKeys pt) as Hc by (apply Hcs; by left).
    destruct (Tabulates_lookup _ _ _ _ _ _ Hm Hr Hc) as (mRow & HmRow & Hval).
    destruct (Tabulates_lookup _ _ _ _ _ _ Ha Hr Hc) as (aRow & HaRow & Haux).
    assert (rowCell pt pivotVal r acc c
            = Some {| rowRev := rowRev acc + rev (ga r c);
                      rowChk := rowChk acc + chk (ga r c);
                      rowPcs := rowPcs acc + pcs (ga r c);
                      rowTotal := if isSumMeasure pivotVal
                                  then rowTotal acc + gm r c else rowTotal acc |})
      as Hcell.
    { unfold rowCell, cellValue. rewrite HmRow, HaRow. simpl. by rewrite Hval, Haux. }
    cbn [forEachM]. rewrite Hcell. cbn [mbind option_bind].
    match goal with |- context [forEachM _ ?a cs] => set (acc1 := a) end.
    destruct (IH (λ c' Hc', Hcs c' (list_elem_of_further _ _ _ Hc')) acc1)
      as (acc' & Hf & H1 & H2 & H3 & H4).
    exists acc'. split; [exact Hf|]. rewrite H1, H2, H3, H4. subst acc1. simpl.
    destruct (isSumMeasure pivotVal); repeat split; ring.
Qed.
End PivotTable.

(** ** Row totals *)

Section RowTotals.
Context `{JsHost}.

Lemma row_sums_over_cells data pivotRow pivotCol r (f : NormalizedRow → Qc) :
  sumQc (map (λ c, sumOf f (cellRows pivotRow pivotCol r c data))
             (pivotColKeys data pivotCol))
  = sumOf f (rowsOf pivotRow r data).
Proof.
  unfold cellRows. apply (sum_partition (fieldString pivotCol) f).
  - apply pivotColKeys_spec.
  - intros d Hd. apply pivotColKeys_spec. exists d. split; [|done].
    unfold rowsOf in Hd. by apply list_elem_of_filter in Hd as [_ Hd].
Qed.

Lemma table_sums_over_rows data pivotRow (f : NormalizedRow → Qc) :
  sumQc (map (λ r, sumOf f (rowsOf pivotRow r data)) (pivotRowKeys data pivotRow))
  = sumOf f data.
Proof.
  unfold rowsOf. apply (sum_partition (fieldString pivotRow) f).
  - apply pivotRowKeys_spec.
  - intros d Hd. apply pivotRowKeys_spec. eauto.
Qed.

Lemma row_total_closed_form data pivotRow pivotCol pivotVal r :
  r ∈ pivotRowKeys data pivotRow →
  ∃ pt cells,
    pivotTable data pivotRow pivotCol pivotVal = Some pt ∧
    (∀ c, c ∈ colKeys pt → auxCell pt r c = Some (cells c)) ∧
    sumQc (map (λ c, rev (cells c)) (colKeys pt))
      = sumOf revenue_rub (rowsOf pivotRow r data) ∧
    sumQc (map (λ c, chk (cells c)) (colKeys pt))
      = sumOf checks (rowsOf pivotRow r data) ∧
    sumQc (map (λ c, pcs (cells c)) (colKeys pt))
      = sumOf pieces (rowsOf pivotRow r data) ∧
    finalTotal pt pivotVal r = Some (rowTotalOf pivotVal (rowsOf pivotRow r data)).
Proof.
  intros Hr.
  destruct (pivotTable_Tabulates data pivotRow pivotCol pivotVal)
    as (pt & Hpt & HRK & HCK & Hm & Ha).
  set (g := foldl (stepFun pivotRow pivotCol pivotVal)
              (λ _ _, 0, λ _ _, {| rev := 0; chk := 0; pcs := 0 |}) data) in *.
  rewrite <-HRK in Hr.
  assert (sumQc (map (λ c, rev (g.2 r c)) (colKeys pt))
          = sumOf revenue_rub (rowsOf pivotRow r data)) as Hrev.
  { subst g. rewrite HCK, <-(row_sums_over_cells data pivotRow pivotCol r revenue_rub).
    apply sumQc_map_ext. intros c _.
    destruct (foldl_stepFun_aux pivotRow pivotCol pivotVal data
                (λ _ _, 0, λ _ _, {| rev := 0; chk := 0; pcs := 0 |}) r c)
      as (-> & _ & _). simpl. ring. }
  assert (sumQc (map (λ c, chk (g.2 r c)) (colKeys pt))
          = sumOf checks (rowsOf pivotRow r data)) as Hchk.
  { subst g. rewrite HCK, <-(row_sums_over_cells data pivotRow pivotCol r checks).
    apply sumQc_map_ext. intros c _.
    destruct (foldl_stepFun_aux pivotRow pivotCol pivotVal data
                (λ _ _, 0, λ _ _, {| rev := 0; chk := 0; pcs := 0 |}) r c)
      as (_ & -> & _). simpl. ring. }
  assert (sumQc (map (λ c, pcs (g.2 r c)) (colKeys pt))
          = sumOf pieces (rowsOf pivotRow r data)) as Hpcs.
  { subst g. rewrite HCK, <-(row_sums_over_cells data pivotRow pivotCol r pieces).
    apply sumQc_map_ext. intros c _.
    destruct (foldl_stepFun_aux pivotRow pivotCol pivotVal data
                (λ _ _, 0, λ _ _, {| rev := 0; chk := 0; pcs := 0 |}) r c)
      as (_ & _ & ->). simpl. ring. }
  exists pt, (g.2 r). split; [done|]. split; [|split; [done|split; [done|split; [done|]]]].
  - intros c Hc. unfold auxCell.
    destruct (Tabulates_lookup _ _ _ _ _ _ Ha Hr Hc) as (aRow & -> & Haux). done.
  - unfold finalTotal.
    destruct (forEach_rowCell pt pivotVal g.1 g.2 r Hm Ha Hr (colKeys pt)
                (λ _ Hc, Hc)
                {| rowTotal := 0; rowRev := 0; rowChk := 0; rowPcs := 0 |})
      as (acc & -> & HaccR & HaccC & HaccP & HaccT).
    cbn [mbind option_bind]. simpl in HaccR, HaccC, HaccP, HaccT.
    rewrite Hrev, Qcplus_0_l in HaccR. rewrite Hchk, Qcplus_0_l in HaccC.
    rewrite Hpcs, Qcplus_0_l in HaccP. rewrite Qcplus_0_l in HaccT.
    assert (isSumMeasure pivotVal = true →
            rowTotal acc = sumOf (measureField pivotVal) (rowsOf pivotRow r data)) as Hsum.
    { intros Hs. subst g. rewrite HaccT, Hs, HCK,
        <-(row_sums_over_cells data pivotRow pivotCol r (measureField pivotVal)).
      apply sumQc_map_ext. intros c _.
      rewrite (foldl_stepFun_sum pivotRow pivotCol pivotVal data Hs). simpl. ring. }
    destruct pivotVal; simpl; rewrite ?ratio_eq, ?HaccR, ?HaccC, ?HaccP;
      try done; by rewrite Hsum.
Qed.

(** Rows that agree on the row key and on the three accumulated measures
    have the same row keys and the same sums per row key. *)
Lemma rowProj_sums pivotRow r : ∀ data data',
  map (rowProj pivotRow) data' = map (rowProj pivotRow) data →
  map (fieldString pivotRow) data' = map (fieldString pivotRow) data ∧
  sumOf revenue_rub (rowsOf pivotRow r data') = sumOf revenue_rub (rowsOf pivotRow r data) ∧
  sumOf checks (rowsOf pivotRow r data') = sumOf checks (rowsOf pivotRow r data) ∧
  sumOf pieces (rowsOf pivotRow r data') = sumOf pieces (rowsOf pivotRow r data).
Proof.
  induction data as [|d data IH]; intros [|d' data'] Heq; simpl in Heq; try done.
  unfold rowProj in Heq. injection Heq as Hk Hrev Hchk Hpcs Htl.
  destruct (IH data' Htl) as (IHk & IHr & IHc & IHp).
  unfold rowsOf in *. split; [simpl; by rewrite Hk, IHk|].
  rewrite !(filter_cons _ d'), !(filter_cons _ d), Hk.
  destruct (decide (fieldString pivotRow d = r)); simpl; [|done].
  by rewrite Hrev, Hchk, Hpcs, IHr, IHc, IHp.
Qed.
End RowTotals.

(** * The claims *)

(** ** Pivot row totals of the ratio measures *)




(** ** Headline ratios of the KPI aggregator *)

Lemma stats_closed_form (data : list NormalizedRow) :
  ∃ s, stats data = Some s ∧
       st_revenue s = sumOf revenue_rub data ∧
       st_checks s = sumOf checks data ∧
       st_pieces s = sumOf pieces data ∧
       st_weight s = sumOf weight_kg data ∧
       st_atv s = guardedRatio (sumOf revenue_rub data) (sumOf checks data) ∧
       st_upt s = guardedRatio (sumOf pieces data) (sumOf checks data).
Proof.
  unfold stats. rewrite !ratio_eq. simpl. eexists. split; [reflexivity|]. simpl.
  destruct (total_sums data) as (-> & -> & -> & ->). done.
Qed.

(** C2, as amended: for every filtered row set the KPI aggregator returns
    its six numbers; the four totals are the sums of revenue, checks,
    pieces and weight; the headline ATV is sum(revenue) / sum(checks) and
    the headline UPT is sum(pieces) / sum(checks) when sum(checks) is
    positive, and both are 0 otherwise; the rows (100, 10) and (50, 5) give
    ATV 10. *)
Theorem stats_ratio_of_sums (data : list NormalizedRow) :
  (∃ s, stats data = Some s ∧
        st_revenue s = sumOf revenue_rub data ∧
        st_checks s = sumOf checks data ∧
        st_pieces s = sumOf pieces data ∧
        st_weight s = sumOf weight_kg data ∧
        st_atv s = (if decide (0 < sumOf checks data)
                    then sumOf revenue_rub data / sumOf checks data else 0) ∧
        st_upt s = (if decide (0 < sumOf checks data)
                    then sumOf pieces data / sumOf checks data else 0)) ∧
  st_atv <$> stats [ mkRow "" "" "" unit_pcs 0 100 10 0 0;
                     mkRow "" "" "" unit_pcs 0 50 5 0 0 ] = Some (num 10).
Proof.
  split; [|qc_eval].
  destruct (stats_closed_form data) as (s & Hs & Hrev & Hchk & Hpcs & Hwgt & Hatv & Hupt).
  exists s. repeat (split; [done|]). done.
Qed.

(** C2 as stated fails where the checks add up to a negative number: the
    claim gives 100 / (-10), the aggregator 0. *)
Lemma stats_ratio_negative_checks :
  st_atv <$> stats refundRows = Some 0 ∧
  spec_ratio (sumOf revenue_rub refundRows) (sumOf checks refundRows) = num (-10) ∧
  st_atv <$> stats refundRows
    ≠ Some (spec_ratio (sumOf revenue_rub refundRows) (sumOf checks refundRows)).
Proof.
  split; [qc_eval|]. split; [qc_eval|].
  intros Heq. vm_compute in Heq. discriminate Heq.
Qed.

(** ** Sum measures against the KPI totals *)



(** ** Filter engine *)

Lemma ltb_negb_leb (a b : string) : negb (String.ltb a b) = String.leb b a.
Proof.
  unfold String.ltb, String.leb. rewrite (String.compare_antisym a b).
  by destruct (String.compare b a).
Qed.

Lemma eqb_empty_iff (s : string) : String.eqb s "" = true ↔ s = "".
Proof. apply String.eqb_eq. Qed.

Lemma arrIncludes_iff (xs : list string) (x : string) :
  arrIncludes xs x = true ↔ x ∈ xs.
Proof.
  unfold arrIncludes. rewrite existsb_exists. split.
  - intros (y & Hy & Heq). apply String.eqb_eq in Heq as ->. by apply list_elem_of_In.
  - intros Hx. exists x. split; [by apply list_elem_of_In|apply String.eqb_refl].
Qed.

Lemma length_zero_iff {A} (xs : list A) : (length xs =? 0)%nat = true ↔ xs = [].
Proof. rewrite Nat.eqb_eq. by destruct xs. Qed.

(** One multi-select test of the callback: skipped for an empty selection. *)
Lemma select_test_iff (xs : list string) (x : string) :
  negb (length xs =? 0)%nat && negb (arrIncludes xs x) = false ↔ xs = [] ∨ x ∈ xs.
Proof.
  rewrite andb_false_iff, !negb_false_iff, length_zero_iff, arrIncludes_iff. done.
Qed.

(** One date bound of the callback: skipped for an empty bound. *)
Lemma bound_test_iff (bound a b : string) :
  negb (String.eqb bound "") && String.ltb a b = false
  ↔ bound = "" ∨ String.leb b a = true.
Proof.
  rewrite andb_false_iff, negb_false_iff, eqb_empty_iff, <-ltb_negb_leb, negb_true_iff.
  done.
Qed.

Lemma keepRow_iff (f : Filters) (d : NormalizedRow) :
  keepRow f d = true ↔ spec_passes f d.
Proof.
  unfold keepRow, spec_passes.
  rewrite <-(bound_test_iff (dateFrom f) (date d) (dateFrom f)).
  rewrite <-(bound_test_iff (dateTo f) (dateTo f) (date d)).
  rewrite <-!select_test_iff.
  repeat match goal with
         | |- context [if ?b then false else _] => destruct b
         end; naive_solver.
Qed.

#[global] Instance spec_passes_dec (f : Filters) (d : NormalizedRow) :
  Decision (spec_passes f d).
Proof. unfold spec_passes. apply _. Defined.

Lemma filteredData_filter (data : list NormalizedRow) (f : Filters) :
  filteredData data f = filter (spec_passes f) data.
Proof.
  unfold filteredData. induction data as [|d data IH]; simpl; [done|].
  rewrite filter_cons, IH.
  destruct (keepRow f d) eqn:Hk.
  - apply keepRow_iff in Hk. by rewrite decide_True.
  - rewrite decide_False; [done|]. rewrite <-keepRow_iff. by rewrite Hk.
Qed.

(** C6: for every dataset and filter specification the filter engine
    returns, in input order, exactly the rows that satisfy (dateFrom empty
    or dateFrom <= date) and (dateTo empty or date <= dateTo) and (stores
    empty or store_name in stores) and (categories empty or category_name
    in categories) and (unitTypes empty or unit_type in unitTypes), the
    dates compared as strings, character by character; the all-empty
    filter returns the dataset unchanged. *)
Theorem filteredData_spec (data : list NormalizedRow) (f : Filters) :
  filteredData data f = filter (spec_passes f) data ∧
  (∀ d, d ∈ filteredData data f ↔ d ∈ data ∧ spec_passes f d) ∧
  filteredData data f `sublist_of` data ∧
  filteredData data emptyFilters = data.
Proof.
  split; [apply filteredData_filter|]. split; [|split].
  - intros d. rewrite filteredData_filter, list_elem_of_filter. naive_solver.
  - rewrite filteredData_filter. apply sublist_filter.
  - unfold filteredData. induction data as [|d data IH]; simpl; [done|].
    by rewrite IH.
Qed.

(** ** Row normaliser *)

Section NormalizerProofs.
Context `{JsHost}.

Lemma getProp_usable (row : JsVal) (k : string) :
  usable row → getProp row k = Some (prop row k).
Proof. intros [Hu Hn]. unfold prop. by destruct row. Qed.

Lemma truthy_usable (v : JsVal) : truthy v = true → usable v.
Proof. by destruct v. Qed.

Lemma resolveRow_usable (item row : JsVal) : resolveRow item = Some row → usable row.
Proof.
  unfold resolveRow. intros Hres.
  destruct (getProp item "json") as [j|] eqn:Hj; [|done]. simpl in Hres.
  destruct (truthy j) eqn:Ht; simplify_eq.
  - by apply truthy_usable.
  - by destruct row.
Qed.

Lemma plainRow_prop (row : JsVal) (k : string) :
  plainRow row → convertible (prop row k) = true.
Proof.
  intros Hplain. unfold prop. destruct row; try done. simpl.
  destruct (o !! k) as [v|] eqn:Hv; [|done]. by apply (Hplain k v).
Qed.

Lemma convertible_jsOr (a b : JsVal) :
  convertible a = true → convertible b = true → convertible (jsOr a b) = true.
Proof. unfold jsOr. by destruct (truthy a). Qed.

Lemma cleanString_convertible (val : JsVal) :
  convertible val = true → cleanString val = Some (cleanText val).
Proof.
  intros Hc. unfold cleanText, cleanString, toString. rewrite Hc. by destruct val.
Qed.

Lemma parseNum_convertible (val : JsVal) :
  convertible val = true → parseNum val = Some (parsedNum val).
Proof.
  intros Hc. unfold parsedNum, parseNum, toString. rewrite Hc.
  destruct val; try done; by destruct (negb _).
Qed.

Lemma normalizeRow_resolved (idx : nat) (item row : JsVal) :
  resolveRow item = Some row → plainRow row →
  normalizeRow idx item = Some (normalizedOf idx row).
Proof.
  intros Hres Hplain. pose proof (resolveRow_usable _ _ Hres) as Hu.
  unfold normalizeRow. rewrite Hres. cbn [mbind option_bind].
  rewrite !(getProp_usable row) by done. cbn [mbind option_bind].
  rewrite !parseNum_convertible, !cleanString_convertible
    by (repeat apply convertible_jsOr; first [by apply plainRow_prop|done]).
  cbn [mbind option_bind].
  rewrite !ratio_eq. cbn [mbind option_bind]. reflexivity.
Qed.

Lemma normalizeFrom_total (raw : list JsVal) : ∀ idx,
  Forall rawItem raw → is_Some (normalizeFrom idx raw).
Proof.
  induction raw as [|item raw IH]; intros idx Hall; [by eexists|].
  apply Forall_cons in Hall as [(row & Hrow & Hplain) Hall].
  destruct (IH (S idx) Hall) as [ns Hns].
  cbn [normalizeFrom]. rewrite (normalizeRow_resolved idx item row Hrow Hplain), Hns.
  by eexists.
Qed.

Lemma jsOr_falsy (a b : JsVal) : truthy a = false → jsOr a b = b.
Proof. unfold jsOr. by intros ->. Qed.

Lemma blank_falsy (v : JsVal) : blank v → truthy v = false.
Proof. by intros [->|[->| ->]]. Qed.
End NormalizerProofs.




(** C7: a store or category name that consists of white space only is
    taken as resolved and then cleaned to the empty string, so the
    normalised name is empty and the fallback label is not used.  The id
    of the same row is cleaned first and falls back afterwards. *)
Lemma store_name_blank_after_cleaning :
  store_name <$> normalizeRow (H := refHost) 0 (obj [("store_name", JStr " ")]) = Some "" ∧
  category_name <$> normalizeRow (H := refHost) 0 (obj [("Категория товара", JStr " ")])
    = Some "" ∧
  id <$> normalizeRow (H := refHost) 3 (obj [("id", JStr " ")]) = Some "row-3" ∧
  store_name <$> normalizeRow (H := refHost) 0 (obj []) = Some "Неизвестно" ∧
  category_name <$> normalizeRow (H := refHost) 0 (obj []) = Some "Прочее".
Proof. repeat split; reflexivity. Qed.



(** ** Totality of the stages *)

(** Outside the domain of the normaliser: reading [item.json] of a [null]
    element raises, and so does cleaning a field that holds an object with
    a [toString] entry of its own. *)
Lemma normalizeData_outside_domain `{JsHost} :
  normalizeData [JNull] = None ∧
  normalizeData [obj [("store_name", obj [("toString", JNum 1)])]] = None.
Proof. split; reflexivity. Qed.



(** ** Order of the column keys *)

Lemma Qcminus_neg (x y : Qc) : x - y < 0 ↔ x < y.
Proof.
  rewrite (Qcplus_lt_mono_r (x - y) 0 y).
  by replace (x - y + y) with x by ring; rewrite Qcplus_0_l.
Qed.

Lemma cmpNum_neg (c : comparison) : cmpNum c < 0 ↔ c = Lt.
Proof. destruct c; simpl; split; done. Qed.

Lemma StronglySorted_impl_in {A} (R R' : A → A → Prop) (l : list A) :
  (∀ a b, a ∈ l → b ∈ l → R a b → R' a b) →
  StronglySorted R l → StronglySorted R' l.
Proof.
  intros Himpl Hl. induction Hl as [|a l Hl IH Hall]; constructor.
  - apply IH. intros x y Hx Hy. apply Himpl; by right.
  - rewrite Forall_forall in *. intros b Hb. apply Himpl; [by left|by right|by apply Hall].
Qed.

(** A comparator that is a difference of ranks sorts by rank. *)
Lemma sortBy_rank_sorted {A} (rank : A → Qc) (l : list A) :
  StronglySorted (λ a b, rank a ≤ rank b) (sortBy (λ a b, rank a - rank b) l).
Proof.
  apply Sorted.Sorted_StronglySorted.
  { intros a b c Hab Hbc. by etrans. }
  eapply Sorted.Sorted_ind with (P := λ l, Sorted (λ a b, rank a ≤ rank b) l);
    [constructor| |apply (sortBy_Sorted (λ a b, rank a - rank b))].
  - intros a l' _ IH Hhd. constructor; [done|].
    destruct Hhd as [|b l'' Hab]; constructor.
    unfold inOrder in Hab. rewrite Qcminus_neg in Hab. by apply Qcnot_lt_le.
  - intros x y _ _. rewrite !Qcminus_neg. intros Hxy Hyx.
    by apply (Qclt_not_le _ _ Hxy), Qclt_le_weak.
Qed.

Section ColumnKeys.
Context `{JsHost}.

Lemma sortBy_collate_sorted (l : list string) :
  StronglySorted collateLe (sortBy (λ a b, cmpNum (localeCompare a b)) l).
Proof.
  apply Sorted.Sorted_StronglySorted.
  { intros a b c. apply localeCompare_trans. }
  eapply Sorted.Sorted_ind with (P := λ l, Sorted collateLe l);
    [constructor| |apply (sortBy_Sorted (λ a b, cmpNum (localeCompare a b)))].
  - intros a l' _ IH Hhd. constructor; [done|].
    destruct Hhd as [|b l'' Hab]; constructor.
    unfold inOrder in Hab. rewrite cmpNum_neg in Hab. unfold collateLe.
    rewrite localeCompare_antisym. by destruct (localeCompare b a).
  - intros x y _ _. rewrite !cmpNum_neg. intros Hxy.
    rewrite localeCompare_antisym, Hxy. done.
Qed.

End ColumnKeys.



(** ** Category ranking *)

Lemma addTo_keys (k : string) (x : Qc) (m : list (string * Qc)) :
  (addTo k x m).*1 = if decide (k ∈ m.*1) then m.*1 else (m.*1 ++ [k])%list.
Proof.
  induction m as [|[k' v] m IH]; csimpl; [done|].
  destruct (decide (k' = k)) as [->|Hne]; csimpl.
  - by rewrite decide_True by left.
  - rewrite IH. destruct (decide (k ∈ m.*1)) as [Hin|Hnin].
    + by rewrite decide_True by (by right).
    + rewrite decide_False; [done|]. intros Hin. apply elem_of_cons in Hin as [?|?]; done.
Qed.

Lemma addTo_elem (k : string) (x : Qc) (m : list (string * Qc)) (k' : string) (v' : Qc) :
  NoDup m.*1 →
  (k', v') ∈ addTo k x m →
  (k' ≠ k ∧ (k', v') ∈ m) ∨
  (k' = k ∧ ((∃ v, (k, v) ∈ m ∧ v' = v + x) ∨ ((k ∉ m.*1) ∧ v' = x))).
Proof.
  induction m as [|[k0 v0] m IH]; simpl; intros Hnd.
  - intros Hin. apply list_elem_of_singleton in Hin. injection Hin as -> ->.
    right. split; [done|]. right. split; [apply not_elem_of_nil|ring].
  - apply NoDup_cons in Hnd as [Hk0 Hnd].
    destruct (decide (k0 = k)) as [->|Hne]; intros Hin.
    + apply elem_of_cons in Hin as [Heq|Hin].
      * injection Heq as -> ->. right. split; [done|]. left. exists v0.
        split; [by left|]. by destruct (decide (v0 = 0)) as [->|].
      * left. split; [|by right]. intros ->. apply Hk0.
        apply list_elem_of_fmap. by exists (k, v').
    + apply elem_of_cons in Hin as [Heq|Hin].
      * injection Heq as -> ->. left. split; [done|]. by left.
      * destruct (IH Hnd Hin) as [[Hk' Hm]|[-> [(v & Hv & ->)|[Hnin ->]]]].
        -- left. split; [done|]. by right.
        -- right. split; [done|]. left. exists v. split; [by right|done].
        -- right. split; [done|]. right. split; [|done].
           intros Hk. apply elem_of_cons in Hk as [?|?]; done.
Qed.

Lemma filter_nil_intro {A} (P : A → Prop) `{∀ x, Decision (P x)} (l : list A) :
  (∀ x, x ∈ l → ¬ P x) → filter P l = [].
Proof.
  induction l as [|x l IH]; intros Hl; [done|].
  rewrite filter_cons, decide_False by (apply Hl; by left).
  apply IH. intros y Hy. apply Hl. by right.
Qed.

(** The dictionary built by [map[k] = (map[k] || 0) + x] over the rows has
    one entry per key, and each entry holds the sum over the rows of that
    key. *)
Lemma foldl_addTo (key : NormalizedRow → string) (f : NormalizedRow → Qc)
    (l : list NormalizedRow) :
  let m := foldl (λ m d, addTo (key d) (f d) m) [] l in
  NoDup m.*1 ∧
  (∀ k, k ∈ m.*1 ↔ ∃ d, d ∈ l ∧ key d = k) ∧
  ∀ k v, (k, v) ∈ m → v = sumOf f (filter (λ d, key d = k) l).
Proof.
  induction l as [|d l IH] using rev_ind; simpl.
  - split; [constructor|]. split.
    + intros k. split; [by intros ?%elem_of_nil|]. by intros (d & ?%elem_of_nil & _).
    + by intros k v ?%elem_of_nil.
  - rewrite foldl_app. simpl.
    destruct IH as (Hnd & Hkeys & Hvals).
    set (m := foldl (λ m d, addTo (key d) (f d) m) [] l) in *.
    split; [|split].
    + rewrite addTo_keys. destruct (decide (key d ∈ m.*1)); [done|].
      apply NoDup_app. repeat split; [done| |apply NoDup_singleton].
      intros k Hk ->%list_elem_of_singleton. done.
    + intros k. rewrite addTo_keys.
      assert (k ∈ (m.*1 ++ [key d])%list ↔ ∃ d0, d0 ∈ (l ++ [d])%list ∧ key d0 = k) as Happ.
      { rewrite elem_of_app, list_elem_of_singleton, Hkeys. split.
        - intros [(d0 & Hd0 & <-)| ->].
          + exists d0. split; [|done]. apply elem_of_app. by left.
          + exists d. split; [|done]. apply elem_of_app. right. by left.
        - intros (d0 & Hd0 & <-). apply elem_of_app in Hd0 as [Hd0|Hd0].
          + left. by exists d0.
          + right. by apply list_elem_of_singleton in Hd0 as ->. }
      destruct (decide (key d ∈ m.*1)) as [Hin|Hnin]; [|done].
      rewrite <-Happ, elem_of_app, list_elem_of_singleton. split; [by left|].
      by intros [?| ->].
    + intros k v Hin. rewrite filter_app, sumOf_app, filter_cons, filter_nil.
      apply addTo_elem in Hin as [[Hk Hm]|[-> [(v0 & Hv0 & ->)|[Hnin ->]]]]; [| | |done].
      * rewrite decide_False by done. simpl. rewrite (Hvals k v Hm). ring.
      * rewrite decide_True by done. simpl. rewrite (Hvals _ v0 Hv0). ring.
      * rewrite decide_True by done. simpl.
        assert (filter (λ d0, key d0 = key d) l = []) as ->; [|simpl; ring].
        apply filter_nil_intro. intros d0 Hd0 Heq.
        apply Hnin, Hkeys. by exists d0.
Qed.




(** * Further properties of the code *)

(** ** Value coercion *)

Lemma removeAll_allChars (p : ascii → bool) (s : string) :
  allChars (λ c, negb (p c)) (removeAll p s) = true.
Proof.
  induction s as [|c s IH]; simpl; [done|].
  destruct (p c) eqn:Hc; simpl; [done|]. by rewrite Hc.
Qed.

Lemma removeAll_id (p : ascii → bool) (s : string) :
  allChars (λ c, negb (p c)) s = true → removeAll p s = s.
Proof.
  induction s as [|c s IH]; simpl; [done|].
  intros [Hc Hs]%andb_true_iff. apply negb_true_iff in Hc. rewrite Hc. by rewrite IH.
Qed.

Lemma allChars_impl (q q' : ascii → bool) (s : string) :
  (∀ c, q c = true → q' c = true) → allChars q s = true → allChars q' s = true.
Proof.
  intros Himpl. induction s as [|c s IH]; simpl; [done|].
  intros [Hc Hs]%andb_true_iff. by rewrite (Himpl c Hc), IH.
Qed.

Lemma trimStart_allChars (q : ascii → bool) (s : string) :
  allChars q s = true → allChars q (trimStart s) = true.
Proof.
  induction s as [|c s IH]; simpl; [done|].
  intros Hs. pose proof Hs as [Hc Hs']%andb_true_iff.
  destruct (isSpace c); [by apply IH|done].
Qed.

Lemma trimEnd_allChars (q : ascii → bool) (s : string) :
  allChars q s = true → allChars q (trimEnd s) = true.
Proof.
  induction s as [|c s IH]; simpl; [done|].
  intros [Hc Hs]%andb_true_iff. specialize (IH Hs).
  destruct (trimEnd s) as [|c' t]; simpl in *.
  - destruct (isSpace c); simpl; [done|]. by rewrite Hc.
  - by rewrite Hc, IH.
Qed.

Lemma trimStart_idem (s : string) : trimStart (trimStart s) = trimStart s.
Proof.
  induction s as [|c s IH]; simpl; [done|].
  destruct (isSpace c) eqn:Hc; [done|]. simpl. by rewrite Hc.
Qed.

Lemma trimEnd_idem (s : string) : trimEnd (trimEnd s) = trimEnd s.
Proof.
  induction s as [|c s IH]; simpl; [done|].
  destruct (trimEnd s) as [|c' t] eqn:Ht.
  - destruct (isSpace c) eqn:Hc; simpl; [done|]. by rewrite Hc.
  - simpl in *. by rewrite IH.
Qed.

(** Trimming the end leaves the first character alone unless the string
    is all white space. *)
Lemma trimStart_trimEnd (s : string) :
  trimStart s = s → trimStart (trimEnd s) = trimEnd s.
Proof.
  destruct s as [|c s]; simpl; [done|].
  destruct (isSpace c) eqn:Hc.
  - intros Heq. apply (f_equal String.length) in Heq. simpl in Heq.
    assert (∀ t, String.length (trimStart t) ≤ String.length t)%nat as Hlen.
    { clear. induction t as [|c t IH]; simpl; [done|]. destruct (isSpace c); simpl; lia. }
    specialize (Hlen s). lia.
  - intros _. destruct (trimEnd s); simpl; by rewrite Hc.
Qed.

Lemma trim_idem (s : string) : trim (trim s) = trim s.
Proof.
  unfold trim.
  rewrite (trimStart_trimEnd (trimStart s)) by apply trimStart_idem.
  apply trimEnd_idem.
Qed.

Section CoercionProperties.
Context `{JsHost}.

End CoercionProperties.


(** Removing a class of characters after a larger one changes nothing, and
    removing a smaller one first does not matter. *)
Lemma removeAll_removeAll_sub (p q : ascii → bool) (s : string) :
  (∀ c, p c = true → q c = true) →
  removeAll p (removeAll q s) = removeAll q s ∧
  removeAll q (removeAll p s) = removeAll q s.
Proof.
  intros Hsub. induction s as [|c s [IH1 IH2]]; simpl; [done|].
  destruct (q c) eqn:Hq, (p c) eqn:Hp; simpl; rewrite ?Hq, ?Hp, ?IH1, ?IH2; try done.
  by rewrite (Hsub c Hp) in Hq.
Qed.

Lemma keptChar_numeric (c : ascii) : keptChar c = true → numericChar c = true.
Proof. unfold keptChar, numericChar. intros ->. done. Qed.

Lemma comma_not_kept (c : ascii) : Ascii.eqb c "," = true → keptChar c = false.
Proof. intros ->%Ascii.eqb_eq. reflexivity. Qed.

Lemma comma_numeric (c : ascii) : Ascii.eqb c "," = true → numericChar c = true.
Proof. intros ->%Ascii.eqb_eq. reflexivity. Qed.

Lemma space_not_numeric (c : ascii) : isSpace c = true → negb (numericChar c) = true.
Proof.
  destruct c as [[] [] [] [] [] [] [] []]; vm_compute; try done.
Qed.

Lemma newline_is_space (c : ascii) : isNewline c = true → isSpace c = true.
Proof.
  destruct c as [[] [] [] [] [] [] [] []]; vm_compute; try done.
Qed.

(** The last two steps of the cleaning see only the numeric characters. *)
Lemma strip_replace_numeric (t : string) :
  removeAll (λ c, negb (keptChar c)) (replaceFirstComma t)
  = removeAll (λ c, negb (keptChar c))
      (replaceFirstComma (removeAll (λ c, negb (numericChar c)) t)).
Proof.
  induction t as [|c t IH]; simpl; [done|].
  destruct (Ascii.eqb c ",") eqn:Hcomma.
  - rewrite (comma_numeric c Hcomma). simpl. rewrite Hcomma. simpl.
    f_equal. symmetry.
    apply (removeAll_removeAll_sub (λ c, negb (numericChar c)) (λ c, negb (keptChar c))).
    intros c' Hc'. apply negb_true_iff in Hc'. apply negb_true_iff.
    destruct (keptChar c') eqn:Hk; [|done]. by rewrite (keptChar_numeric c' Hk) in Hc'.
  - destruct (numericChar c) eqn:Hnum; simpl.
    + rewrite Hcomma. simpl. by rewrite IH.
    + assert (keptChar c = false) as ->; [|simpl; exact IH].
      destruct (keptChar c) eqn:Hk; [|done]. by rewrite (keptChar_numeric c Hk) in Hnum.
Qed.

Section ParseNumProperties.
Context `{JsHost}.

(** X2: [parseNum] reads a string through its digits, full stops, minus
    signs and commas only: every other character (white space, letters,
    currency signs) can be deleted from the string without changing the
    number returned. *)
Theorem parseNum_numeric_chars_only (s : string) :
  parseNum (JStr s) = parseNum (JStr (removeAll (λ c, negb (numericChar c)) s)).
Proof.
  set (keep := removeAll (λ c, negb (numericChar c))).
  assert (∀ t, removeAll (λ c, negb (keptChar c))
                 (replaceFirstComma (removeAll isSpace (removeAll isNewline t)))
               = removeAll (λ c, negb (keptChar c)) (replaceFirstComma (keep t))) as Hclean.
  { intros t. rewrite strip_replace_numeric. fold keep. do 2 f_equal. unfold keep.
    destruct (removeAll_removeAll_sub isSpace (λ c, negb (numericChar c))
                (removeAll isNewline t) space_not_numeric) as [_ ->].
    apply (removeAll_removeAll_sub isNewline (λ c, negb (numericChar c))).
    intros c Hc. by apply space_not_numeric, newline_is_space. }
  assert (keep (keep s) = keep s) as Hkk.
  { unfold keep. by apply removeAll_removeAll_sub. }
  unfold parseNum, toString. simpl.
  change (λ c, negb (isDigit c || Ascii.eqb c "." || Ascii.eqb c "-"))
    with (λ c, negb (keptChar c)).
  rewrite !Hclean, Hkk.
  destruct (String.eqb s "") eqn:Hs, (String.eqb (keep s) "") eqn:Hk; simpl; try done.
  - apply String.eqb_eq in Hs as ->. done.
  - apply String.eqb_eq in Hk as ->. done.
Qed.
End ParseNumProperties.

(** *** Decimal numerals *)

Lemma append_cons (c : ascii) (s1 s2 : string) :
  String c s1 ++ s2 = String c (s1 ++ s2).
Proof. reflexivity. Qed.

Lemma append_assoc (s1 s2 s3 : string) : (s1 ++ s2) ++ s3 = s1 ++ (s2 ++ s3).
Proof.
  induction s1 as [|c s1 IH]; [done|]. by rewrite !append_cons, IH.
Qed.

Lemma digitsValue_app (acc : Z) (s1 s2 : string) :
  digitsValue acc (s1 ++ s2) = digitsValue (digitsValue acc s1) s2.
Proof.
  revert acc. induction s1 as [|c s1 IH]; intros acc; [done|].
  rewrite append_cons. simpl. apply IH.
Qed.

Lemma allChars_app (q : ascii → bool) (s1 s2 : string) :
  allChars q (s1 ++ s2) = allChars q s1 && allChars q s2.
Proof.
  induction s1 as [|c s1 IH]; [done|].
  rewrite append_cons. simpl. by rewrite IH, andb_assoc.
Qed.

Lemma pretty_N_char_digit (d : N) :
  (d < 10)%N →
  isDigit (pretty_N_char d) = true ∧
  (Z.of_nat (nat_of_ascii (pretty_N_char d)) - 48 = Z.of_N d)%Z.
Proof.
  intros Hd.
  assert (d = 0 ∨ d = 1 ∨ d = 2 ∨ d = 3 ∨ d = 4 ∨ d = 5 ∨ d = 6 ∨ d = 7 ∨ d = 8 ∨ d = 9)%N
    as Hcases by lia.
  repeat destruct Hcases as [->|Hcases]; try subst d; by vm_compute.
Qed.

Lemma pretty_N_go_app (x : N) : ∀ s, pretty_N_go x s = pretty_N_go x "" ++ s.
Proof.
  induction (N.lt_wf_0 x) as [x _ IH]; intros s.
  assert (x = 0 ∨ 0 < x)%N as [->|Hx] by lia; [done|].
  assert (x `div` 10 < x)%N as Hlt by (by apply N.div_lt).
  rewrite !(pretty_N_go_step x) by done.
  rewrite (IH _ Hlt (String (pretty_N_char (x `mod` 10)) s)),
    (IH _ Hlt (String (pretty_N_char (x `mod` 10)) "")).
  by rewrite append_assoc.
Qed.

(** The numeral of a natural number consists of digits, is not empty, and
    has the number as its value. *)
Lemma pretty_N_digits (x : N) :
  allChars isDigit (pretty x) = true ∧ pretty x ≠ "" ∧
  digitsValue 0 (pretty x) = Z.of_N x.
Proof.
  assert (∀ x, allChars isDigit (pretty_N_go x "") = true ∧
               digitsValue 0 (pretty_N_go x "") = Z.of_N x) as Hgo.
  { clear x. intros x. induction (N.lt_wf_0 x) as [x _ IH].
    assert (x = 0 ∨ 0 < x)%N as [->|Hx] by lia; [done|].
    rewrite pretty_N_go_step, pretty_N_go_app by done.
    destruct (IH (x `div` 10)%N) as [IHd IHv]; [by apply N.div_lt|].
    destruct (pretty_N_char_digit (x `mod` 10)%N) as [Hd Hv]; [by apply N.mod_lt|].
    rewrite allChars_app, digitsValue_app, IHd, IHv. simpl. rewrite Hd, Hv.
    split; [done|]. rewrite (N.div_mod x 10) at 3 by done. lia. }
  unfold pretty, pretty_N. destruct (decide (x = 0)%N) as [->|Hx]; [done|].
  destruct (Hgo x) as [Hd Hv]. split; [done|]. split; [|done].
  intros Hempty. rewrite Hempty in Hv. simpl in Hv. lia.
Qed.

Lemma takeDigits_all (s : string) :
  allChars isDigit s = true → takeDigits s = (s, "").
Proof.
  induction s as [|c s IH]; simpl; [done|].
  intros [-> Hs]%andb_true_iff. by rewrite IH.
Qed.

Lemma digit_classes (c : ascii) :
  isDigit c = true →
  isNewline c = false ∧ isSpace c = false ∧ Ascii.eqb c "," = false ∧
  Ascii.eqb c "-" = false ∧ keptChar c = true.
Proof. destruct c as [[] [] [] [] [] [] [] []]; vm_compute; try done. Qed.

Lemma replaceFirstComma_id (s : string) :
  allChars (λ c, negb (Ascii.eqb c ",")) s = true → replaceFirstComma s = s.
Proof.
  induction s as [|c s IH]; simpl; [done|].
  intros [Hc Hs]%andb_true_iff. apply negb_true_iff in Hc. rewrite Hc. by rewrite IH.
Qed.

(** On a string of digits the cleaning of [parseNum] changes nothing. *)
Lemma cleaning_digits (s : string) :
  allChars isDigit s = true →
  removeAll (λ c, negb (keptChar c))
    (replaceFirstComma (removeAll isSpace (removeAll isNewline s))) = s.
Proof.
  intros Hs.
  rewrite (removeAll_id isNewline), (removeAll_id isSpace), replaceFirstComma_id,
    (removeAll_id (λ c, negb (keptChar c))); [done|..];
    (eapply allChars_impl; [|exact Hs]); intros c Hc;
    destruct (digit_classes c Hc) as (Hnl & Hsp & Hco & Hmi & Hk);
    by rewrite ?Hnl, ?Hsp, ?Hco, ?Hk.
Qed.

Lemma parseFloat_digits (s : string) :
  allChars isDigit s = true → s ≠ "" →
  parseFloat s = Some (Qc_of_Z (digitsValue 0 s)) ∧
  parseFloat (String "-" s) = Some (- Qc_of_Z (digitsValue 0 s)).
Proof.
  intros Hs Hne.
  assert (Qc_of_Z (digitsValue 0 (s ++ "")) / Qc_of_Z (10 ^ Z.of_nat (String.length ""))
          = Qc_of_Z (digitsValue 0 s)) as Hval.
  { rewrite digitsValue_app. simpl.
    replace (Qc_of_Z 1) with (1 : Qc) by (by apply Qc_is_canon).
    apply Qcdiv_right_id. }
  assert (String.eqb s "" = false) as Hnb by (by apply String.eqb_neq).
  split.
  - unfold parseFloat. destruct s as [|c s]; [done|].
    simpl in Hs. apply andb_true_iff in Hs as [Hc Hs].
    destruct (digit_classes c Hc) as (_ & _ & _ & Hmi & _).
    assert (match String c s with
            | String "-"%char r => (true, r)
            | _ => (false, String c s)
            end = (false, String c s)) as ->.
    { apply Ascii.eqb_neq in Hmi.
      destruct c as [[] [] [] [] [] [] [] []]; try done. }
    rewrite (takeDigits_all (String c s)) by (simpl; by rewrite Hc, Hs).
    rewrite Hnb. simpl andb. cbv iota. by rewrite Hval.
  - unfold parseFloat. rewrite (takeDigits_all s Hs), Hnb. simpl andb. cbv iota.
    by rewrite Hval.
Qed.

Section ParseNumRoundTrip.
Context `{JsHost}.

End ParseNumRoundTrip.

(** ** The normalised dataset *)

Section NormalizerProperties.
Context `{JsHost}.

Lemma cleanString_Some (v : JsVal) (s : string) :
  cleanString v = Some s → cleanText v = s.
Proof. unfold cleanText. by intros ->. Qed.

Lemma parseNum_Some (v : JsVal) (q : Qc) :
  parseNum v = Some q → parsedNum v = q.
Proof. unfold parsedNum. by intros ->. Qed.

(** Whenever the normaliser returns a row, it is the canonical row of the
    resolved raw row. *)
Lemma normalizeRow_inv (idx : nat) (item : JsVal) (n : NormalizedRow) :
  normalizeRow idx item = Some n →
  ∃ row, resolveRow item = Some row ∧ n = normalizedOf idx row.
Proof.
  unfold normalizeRow. intros Hn.
  destruct (resolveRow item) as [row|] eqn:Hres; [|done].
  pose proof (resolveRow_usable _ _ Hres) as Hu.
  exists row. split; [done|].
  cbn [mbind option_bind] in Hn.
  rewrite !(getProp_usable row) in Hn by done. cbn [mbind option_bind] in Hn.
  repeat (first [ rewrite ratio_eq in Hn
                | match type of Hn with
                  | (?x ≫= _) = _ => destruct x eqn:?; [|done]
                  end ];
          cbn [mbind option_bind] in Hn).
  repeat match goal with
         | E : parseNum _ = Some _ |- _ => apply parseNum_Some in E
         | E : cleanString _ = Some _ |- _ => apply cleanString_Some in E
         end.
  injection Hn as <-. unfold normalizedOf. by subst.
Qed.

Lemma normalizeFrom_lookup (raw : list JsVal) : ∀ idx data,
  normalizeFrom idx raw = Some data →
  length data = length raw ∧
  ∀ i item, raw !! i = Some item →
    ∃ n, normalizeRow (idx + i) item = Some n ∧ data !! i = Some n.
Proof.
  induction raw as [|item raw IH]; intros idx data Hdata.
  - injection Hdata as <-. split; [done|]. by intros i item' ?.
  - cbn [normalizeFrom] in Hdata.
    destruct (normalizeRow idx item) as [n|] eqn:Hn; [|done].
    cbn [mbind option_bind] in Hdata.
    destruct (normalizeFrom (S idx) raw) as [ns|] eqn:Hns; [|done].
    injection Hdata as <-. destruct (IH _ _ Hns) as [Hlen Hrows].
    split; [simpl; by rewrite Hlen|].
    intros [|i] item' Hi; simpl in Hi.
    + injection Hi as <-. exists n. by rewrite Nat.add_0_r.
    + destruct (Hrows i item' Hi) as (n' & Hn' & Hi').
      exists n'. split; [|done]. by replace (idx + S i)%nat with (S idx + i)%nat by lia.
Qed.

(** X4: a dataset returned by the normaliser has one row per raw item, in
    input order: the row at every index is the normalisation, under that
    index, of the raw item at the same index. *)
Theorem normalizeData_rows (raw : list JsVal) (data : list NormalizedRow) :
  normalizeData raw = Some data →
  length data = length raw ∧
  ∀ i item, raw !! i = Some item →
    ∃ n, normalizeRow i item = Some n ∧ data !! i = Some n.
Proof. intros Hdata. by apply (normalizeFrom_lookup raw 0 data). Qed.

(** X5: the id of a normalised row is never empty: a raw id that cleans to
    the empty string is replaced by "row-" and the index.  When no raw row
    has a usable id, the ids of the dataset are pairwise distinct. *)
Theorem normalized_ids (raw : list JsVal) (data : list NormalizedRow) :
  normalizeData raw = Some data →
  (∀ n, n ∈ data → id n ≠ "") ∧
  ((∀ item row, item ∈ raw → resolveRow item = Some row →
      cleanString (prop row "id") = Some "") →
   (∀ i n, data !! i = Some n → id n = "row-" ++ pretty i) ∧ NoDup (map id data)).
Proof.
  intros Hdata. destruct (normalizeFrom_lookup raw 0 data Hdata) as [Hlen Hrows].
  assert (∀ i n, data !! i = Some n →
            ∃ item row, raw !! i = Some item ∧ resolveRow item = Some row ∧
                        n = normalizedOf i row) as Hsrc.
  { intros i n Hi.
    destruct (raw !! i) as [item|] eqn:Hitem.
    - destruct (Hrows i item Hitem) as (n' & Hn' & Hi'). simplify_eq.
      destruct (normalizeRow_inv _ _ _ Hn') as (row & Hres & ->). eauto.
    - apply lookup_ge_None in Hitem. apply lookup_lt_Some in Hi. lia. }
  split.
  - intros n [i Hi]%list_elem_of_lookup.
    destruct (Hsrc i n Hi) as (item & row & _ & _ & ->). simpl.
    destruct (String.eqb (cleanText (prop row "id")) "") eqn:Hid; [done|].
    by apply String.eqb_neq.
  - intros Hnoid.
    assert (∀ i n, data !! i = Some n → id n = "row-" ++ pretty i) as Hids.
    { intros i n Hi. destruct (Hsrc i n Hi) as (item & row & Hitem & Hres & ->).
      simpl. apply list_elem_of_lookup_2 in Hitem.
      by rewrite (cleanString_Some _ _ (Hnoid item row Hitem Hres)). }
    split; [done|].
    apply NoDup_alt. intros i j s Hi Hj.
    rewrite list_lookup_fmap in Hi, Hj.
    destruct (data !! i) as [ni|] eqn:Hni; [|done].
    destruct (data !! j) as [nj|] eqn:Hnj; [|done].
    simpl in Hi, Hj. injection Hi as Hi. injection Hj as Hj.
    rewrite (Hids i ni Hni) in Hi. rewrite (Hids j nj Hnj) in Hj.
    rewrite <-Hj in Hi. change ("row-" ++ pretty i) with
      (String "r" (String "o" (String "w" (String "-" (pretty i))))) in Hi.
    change ("row-" ++ pretty j) with
      (String "r" (String "o" (String "w" (String "-" (pretty j))))) in Hi.
    injection Hi as Hi. by apply (inj pretty) in Hi.
Qed.


(** X7: the year of a normalised row is never 0: a year that is missing
    or does not parse to a non-zero number becomes 2025. *)
Theorem normalized_year (idx : nat) (item : JsVal) (n : NormalizedRow) :
  normalizeRow idx item = Some n →
  year n ≠ 0 ∧
  ∃ row, resolveRow item = Some row ∧
         (parseNum (prop row "year") = Some 0 → year n = Qc_of_Z 2025).
Proof.
  intros Hn. destruct (normalizeRow_inv _ _ _ Hn) as (row & Hres & ->).
  split.
  - simpl. destruct (decide (parsedNum (prop row "year") = 0)); [|done].
    intros Heq. apply (f_equal (λ q : Qc, Qnum q)) in Heq. discriminate Heq.
  - exists row. split; [done|]. intros Hy. simpl.
    by rewrite (parseNum_Some _ _ Hy), decide_True.
Qed.
End NormalizerProperties.

(** ** Filters and their controls *)

(** X8: filtering is idempotent, two filter specifications can be applied
    in either order, and filtering a dataset that arrives in two parts
    gives the two filtered parts one after the other. *)
Theorem filteredData_composes (data data' : list NormalizedRow) (f g : Filters) :
  filteredData (filteredData data f) f = filteredData data f ∧
  filteredData (filteredData data f) g = filteredData (filteredData data g) f ∧
  filteredData (data ++ data') f = (filteredData data f ++ filteredData data' f)%list.
Proof.
  unfold filteredData. split; [|split].
  - induction data as [|d data IH]; simpl; [done|].
    destruct (keepRow f d) eqn:Hd; simpl; [|done]. by rewrite Hd, IH.
  - induction data as [|d data IH]; simpl; [done|].
    destruct (keepRow f d) eqn:Hf, (keepRow g d) eqn:Hg; simpl;
      rewrite ?Hf, ?Hg, ?IH; done.
  - apply List.filter_app.
Qed.

Lemma ltb_leb_false (a b : string) : String.ltb a b = true → String.leb b a = false.
Proof. intros Hlt. rewrite <-ltb_negb_leb. by rewrite Hlt. Qed.

Lemma leb_trans (a b c : string) :
  String.leb a b = true → String.leb b c = true → String.leb a c = true.
Proof.
  unfold String.leb. intros Hab Hbc.
  pose proof (compare_not_Gt_trans a b c) as Htrans.
  destruct (String.compare a b), (String.compare b c), (String.compare a c);
    try done; by exfalso; apply Htrans.
Qed.

(** X9: when both date bounds are set and the upper bound is before the
    lower one, no row passes: the filtered dataset is empty, whatever the
    other selections. *)
Theorem filteredData_inverted_range (data : list NormalizedRow) (f : Filters) :
  dateFrom f ≠ "" → dateTo f ≠ "" → String.ltb (dateTo f) (dateFrom f) = true →
  filteredData data f = [].
Proof.
  intros Hfrom Hto Hinv. rewrite filteredData_filter.
  apply filter_nil_intro. intros d _ (Hlo & Hhi & _).
  destruct Hlo as [?|Hlo]; [done|]. destruct Hhi as [?|Hhi]; [done|].
  pose proof (leb_trans _ _ _ Hlo Hhi) as Hle.
  by rewrite (ltb_leb_false _ _ Hinv) in Hle.
Qed.

Lemma filteredData_inverted_range_witness :
  filteredData sampleRows
    {| dateFrom := "2025-08-01"; dateTo := "2025-07-31";
       stores := []; categories := []; unitTypes := [] |} = [].
Proof.
  apply filteredData_inverted_range; [discriminate|discriminate|reflexivity].
Defined.

(** The callback of the filter sees the three selections only through
    their members. *)
Lemma arrIncludes_ext (xs ys : list string) :
  (∀ x, x ∈ xs ↔ x ∈ ys) → ∀ x, arrIncludes xs x = arrIncludes ys x.
Proof.
  intros Heq x. apply eq_true_iff_eq. by rewrite !arrIncludes_iff.
Qed.

Lemma length_zero_ext {A} (xs ys : list A) :
  (∀ x, x ∈ xs ↔ x ∈ ys) → (length xs =? 0)%nat = (length ys =? 0)%nat.
Proof.
  intros Heq. destruct xs as [|x xs], ys as [|y ys]; simpl; try done.
  - destruct (Heq y) as [_ Hy]. by destruct (not_elem_of_nil y); apply Hy; left.
  - destruct (Heq x) as [Hx _]. by destruct (not_elem_of_nil x); apply Hx; left.
Qed.

Lemma keepRow_ext (f g : Filters) (d : NormalizedRow) :
  dateFrom f = dateFrom g → dateTo f = dateTo g →
  (∀ x, x ∈ stores f ↔ x ∈ stores g) →
  (∀ x, x ∈ categories f ↔ x ∈ categories g) →
  (∀ x, x ∈ unitTypes f ↔ x ∈ unitTypes g) →
  keepRow f d = keepRow g d.
Proof.
  intros Hfrom Hto Hs Hc Hu. unfold keepRow.
  by rewrite Hfrom, Hto, (length_zero_ext _ _ Hs), (arrIncludes_ext _ _ Hs),
    (length_zero_ext _ _ Hc), (arrIncludes_ext _ _ Hc),
    (length_zero_ext _ _ Hu), (arrIncludes_ext _ _ Hu).
Qed.

Lemma toggle_elem (checked : bool) (s x : string) (xs : list string) :
  x ∈ toggle checked s xs ↔
  if checked then x ∈ xs ∨ x = s else x ∈ xs ∧ x ≠ s.
Proof.
  unfold toggle. destruct checked.
  - rewrite elem_of_app, list_elem_of_singleton. done.
  - rewrite list_elem_of_filter. naive_solver.
Qed.

(** X10: the check-box handlers of the store and category selections.
    Ticking a name selects it and keeps the others; unticking removes every
    occurrence of it and keeps the others in order; ticking a name that was
    not selected and unticking it again restores the selection; and
    unticking a name and ticking it again leaves the filtered dataset as it
    was when the name was selected. *)
Theorem toggle_selection (s : string) (xs : list string) :
  (s ∈ toggle true s xs ∧ ∀ x, x ∈ xs → x ∈ toggle true s xs) ∧
  ((s ∉ toggle false s xs) ∧ (toggle false s xs `sublist_of` xs) ∧
   ∀ x, x ∈ xs → x ≠ s → x ∈ toggle false s xs) ∧
  (s ∉ xs → toggle false s (toggle true s xs) = xs) ∧
  (s ∈ xs → ∀ data f,
     stores f = xs →
     filteredData data (toggleStore true s (toggleStore false s f)) = filteredData data f) ∧
  (s ∈ xs → ∀ data f,
     categories f = xs →
     filteredData data (toggleCategory true s (toggleCategory false s f))
     = filteredData data f).
Proof.
  split; [|split; [|split; [|split]]].
  - split; [apply toggle_elem; by right|]. intros x Hx. apply toggle_elem. by left.
  - split; [|split].
    + intros Hin. apply toggle_elem in Hin. naive_solver.
    + apply sublist_filter.
    + intros x Hx Hne. by apply toggle_elem.
  - intros Hs. unfold toggle. rewrite filter_app, filter_cons, filter_nil.
    rewrite decide_False by naive_solver. rewrite app_nil_r.
    induction xs as [|x xs IH]; [done|].
    apply not_elem_of_cons in Hs as [Hne Hs].
    rewrite filter_cons, decide_True by done. by rewrite IH.
  - intros Hs data f <-. unfold filteredData. apply filter_ext. intros d.
    apply keepRow_ext; [done|done| |done|done].
    intros x. cbn [stores toggleStore]. rewrite !toggle_elem.
    destruct (decide (x = s)) as [->|]; naive_solver.
  - intros Hs data f <-. unfold filteredData. apply filter_ext. intros d.
    apply keepRow_ext; [done|done|done| |done].
    intros x. cbn [categories toggleCategory]. rewrite !toggle_elem.
    destruct (decide (x = s)) as [->|]; naive_solver.
Qed.

Lemma toggle_selection_witness :
  toggle false "B" (toggle true "B" ["A"; "C"]) = ["A"; "C"].
Proof.
  apply (toggle_selection "B" ["A"; "C"]).
  intros Hin. repeat (apply elem_of_cons in Hin as [Hin|Hin]; [discriminate Hin|]).
  by apply elem_of_nil in Hin.
Defined.

(** Sorting by a three-way comparison of keys that is antisymmetric and
    transitive gives a list in ascending order of the keys. *)
Lemma sortBy_compare_key_sorted {A} (key : A → string)
    (cmp : string → string → comparison) (l : list A) :
  (∀ a b, cmp a b = CompOpp (cmp b a)) →
  (∀ a b c, cmp a b ≠ Gt → cmp b c ≠ Gt → cmp a c ≠ Gt) →
  StronglySorted (λ a b, cmp (key a) (key b) ≠ Gt)
    (sortBy (λ a b, cmpNum (cmp (key a) (key b))) l).
Proof.
  intros Hanti Htrans. apply Sorted.Sorted_StronglySorted.
  { intros a b c. apply Htrans. }
  eapply Sorted.Sorted_ind with (P := λ l, Sorted (λ a b, cmp (key a) (key b) ≠ Gt) l);
    [constructor| |apply (sortBy_Sorted (λ a b, cmpNum (cmp (key a) (key b))))].
  - intros a l' _ IH Hhd. constructor; [done|].
    destruct Hhd as [|b l'' Hab]; constructor.
    unfold inOrder in Hab. rewrite cmpNum_neg in Hab.
    rewrite Hanti. destruct (cmp (key b) (key a)); simpl; congruence.
  - intros x y _ _. rewrite !cmpNum_neg. intros Hxy.
    rewrite Hanti, Hxy. simpl. congruence.
Qed.

(** The default sort of an array of strings. *)
Lemma sortBy_default_sorted (l : list string) :
  StronglySorted (λ a b, String.leb a b = true) (sortBy defaultCompare l).
Proof.
  eapply StronglySorted_impl_in;
    [|apply (sortBy_compare_key_sorted (λ s, s) String.compare l
               String.compare_antisym compare_not_Gt_trans)].
  intros a b _ _ Hab. simpl in Hab. unfold String.leb.
  by destruct (String.compare a b).
Qed.

Lemma sorted_set_spec (xs : list string) :
  NoDup (sortBy defaultCompare (arrayFromSet xs)) ∧
  (∀ x, x ∈ sortBy defaultCompare (arrayFromSet xs) ↔ x ∈ xs) ∧
  StronglySorted (λ a b, String.leb a b = true) (sortBy defaultCompare (arrayFromSet xs)).
Proof.
  destruct (arrayFromSet_spec xs) as [Hnd Hin].
  split; [by rewrite sortBy_perm|]. split; [|apply sortBy_default_sorted].
  intros x. by rewrite sortBy_perm.
Qed.

(** X11: the options of the store select are the store names of the
    dataset, each once, in ascending order of their characters, and
    selecting all of them filters like selecting none.  The same holds for
    the categories. *)
Theorem unique_options (data : list NormalizedRow) (f : Filters) :
  (NoDup (uniqueStores data) ∧
   (∀ s, s ∈ uniqueStores data ↔ ∃ d, d ∈ data ∧ store_name d = s) ∧
   StronglySorted (λ a b, String.leb a b = true) (uniqueStores data) ∧
   filteredData data
     {| dateFrom := dateFrom f; dateTo := dateTo f; stores := uniqueStores data;
        categories := categories f; unitTypes := unitTypes f |}
   = filteredData data
       {| dateFrom := dateFrom f; dateTo := dateTo f; stores := [];
          categories := categories f; unitTypes := unitTypes f |}) ∧
  (NoDup (uniqueCats data) ∧
   (∀ c, c ∈ uniqueCats data ↔ ∃ d, d ∈ data ∧ category_name d = c) ∧
   StronglySorted (λ a b, String.leb a b = true) (uniqueCats data) ∧
   filteredData data
     {| dateFrom := dateFrom f; dateTo := dateTo f; stores := stores f;
        categories := uniqueCats data; unitTypes := unitTypes f |}
   = filteredData data
       {| dateFrom := dateFrom f; dateTo := dateTo f; stores := stores f;
          categories := []; unitTypes := unitTypes f |}).
Proof.
  split.
  - destruct (sorted_set_spec (map store_name data)) as (Hnd & Hin & Hsorted).
    fold (uniqueStores data) in Hnd, Hin, Hsorted.
    split; [done|]. split; [|split; [done|]].
    + intros s. rewrite Hin, list_elem_of_fmap. naive_solver.
    + unfold filteredData. apply List.filter_ext_in. intros d Hd%list_elem_of_In.
      assert (arrIncludes (uniqueStores data) (store_name d) = true) as Hall.
      { apply arrIncludes_iff, Hin, list_elem_of_fmap. eauto. }
      unfold keepRow. simpl. rewrite Hall. simpl. by rewrite andb_false_r.
  - destruct (sorted_set_spec (map category_name data)) as (Hnd & Hin & Hsorted).
    fold (uniqueCats data) in Hnd, Hin, Hsorted.
    split; [done|]. split; [|split; [done|]].
    + intros c. rewrite Hin, list_elem_of_fmap. naive_solver.
    + unfold filteredData. apply List.filter_ext_in. intros d Hd%list_elem_of_In.
      assert (arrIncludes (uniqueCats data) (category_name d) = true) as Hall.
      { apply arrIncludes_iff, Hin, list_elem_of_fmap. eauto. }
      unfold keepRow. simpl. rewrite Hall. simpl. by rewrite andb_false_r.
Qed.

(** The month buttons test the date of a row only. *)
Lemma keepRow_monthPreset (m : nat) (d : NormalizedRow) :
  keepRow (monthPreset m emptyFilters) d
  = keepRow (monthPreset m emptyFilters) (mkRow (date d) "" "" unit_kg 0 0 0 0 0).
Proof. reflexivity. Qed.

(** X12: after a month button of the side bar (July to December) is
    pressed on otherwise empty filters, a row dated in 2025 in the form
    YYYY-MM-DD passes the filter if and only if its month is the month of
    the button, for every month 1..12 and every day 1..31. *)
Theorem monthPreset_selects_month (m mm dd : nat) (d : NormalizedRow) :
  m ∈ presetMonths → (1 ≤ mm ≤ 12)%nat → (1 ≤ dd ≤ 31)%nat →
  date d = isoDate 2025 mm dd →
  keepRow (monthPreset m emptyFilters) d = true ↔ mm = m.
Proof.
  intros Hm Hmm Hdd Hdate. rewrite keepRow_monthPreset, Hdate.
  assert (forallb (λ m, forallb (λ mm, forallb (λ dd,
            Bool.eqb
              (keepRow (monthPreset m emptyFilters)
                 (mkRow (isoDate 2025 mm dd) "" "" unit_kg 0 0 0 0 0))
              (mm =? m)%nat)
            (seq 1 31)) (seq 1 12)) presetMonths = true) as Hall by (by vm_compute).
  assert (In m presetMonths) as Hin_m by (by apply list_elem_of_In).
  assert (In mm (seq 1 12)) as Hin_mm by (apply in_seq; lia).
  assert (In dd (seq 1 31)) as Hin_dd by (apply in_seq; lia).
  rewrite forallb_forall in Hall. specialize (Hall m Hin_m).
  rewrite forallb_forall in Hall. specialize (Hall mm Hin_mm).
  rewrite forallb_forall in Hall. specialize (Hall dd Hin_dd).
  apply Bool.eqb_prop in Hall. rewrite Hall. apply Nat.eqb_eq.
Qed.

Lemma monthPreset_selects_month_witness :
  keepRow (monthPreset 8 emptyFilters) (mkRow "2025-08-30" "A" "c1" unit_kg 8 1 1 1 1) = true.
Proof.
  apply (monthPreset_selects_month 8 8 30); [in_eval|lia|lia|reflexivity|reflexivity].
Defined.

(** ** KPI totals *)

Lemma sumOf_perm (f : NormalizedRow → Qc) (l l' : list NormalizedRow) :
  l ≡ₚ l' → sumOf f l = sumOf f l'.
Proof.
  induction 1 as [|d l l' _ IH|d d' l|l l' l'' _ IH1 _ IH2]; simpl.
  - done.
  - by rewrite IH.
  - ring.
  - by rewrite IH1.
Qed.

Lemma total_eq (l l' : list NormalizedRow) :
  sumOf revenue_rub l = sumOf revenue_rub l' → sumOf checks l = sumOf checks l' →
  sumOf pieces l = sumOf pieces l' → sumOf weight_kg l = sumOf weight_kg l' →
  total l = total l'.
Proof.
  intros Hr Hc Hp Hw.
  destruct (total_sums l) as (Hr1 & Hc1 & Hp1 & Hw1).
  destruct (total_sums l') as (Hr2 & Hc2 & Hp2 & Hw2).
  destruct (total l), (total l'). simpl in *. congruence.
Qed.



(** ** Cells and keys of the pivot table *)

Section PivotCells.
Context `{JsHost}.

Lemma foldl_stepFun_calc pivotRow pivotCol pivotVal (l : list NormalizedRow) :
  isSumMeasure pivotVal = false → ∀ g,
  (∀ r c, g.1 r c = calcOf pivotVal (g.2 r c)) →
  ∀ r c, (foldl (stepFun pivotRow pivotCol pivotVal) g l).1 r c
         = calcOf pivotVal ((foldl (stepFun pivotRow pivotCol pivotVal) g l).2 r c).
Proof.
  intros Hcalc. induction l as [|d l IH]; intros g Hg r c; simpl; [done|].
  apply IH. intros r' c'. simpl. unfold upd.
  destruct (decide (r' = fieldString pivotRow d ∧ c' = fieldString pivotCol d)); [|done].
  by destruct pivotVal.
Qed.

Lemma cellRows_swap pivotRow pivotCol r c (data : list NormalizedRow) :
  cellRows pivotRow pivotCol r c data = cellRows pivotCol pivotRow c r data.
Proof.
  unfold cellRows, rowsOf. induction data as [|d data IH]; [done|].
  rewrite !(filter_cons _ d).
  destruct (decide (fieldString pivotRow d = r)), (decide (fieldString pivotCol d = c));
    rewrite ?filter_cons, ?decide_True, ?decide_False by done; by rewrite ?IH.
Qed.

(** The cell of a row key and a column key, under any measure. *)
Lemma pivot_cell_closed_form data pivotRow pivotCol pivotVal r c :
  r ∈ pivotRowKeys data pivotRow → c ∈ pivotColKeys data pivotCol →
  ∃ pt, pivotTable data pivotRow pivotCol pivotVal = Some pt ∧
        cellValue pt r c
          = Some (rowTotalOf pivotVal (cellRows pivotRow pivotCol r c data)) ∧
        auxCell pt r c
          = Some {| rev := sumOf revenue_rub (cellRows pivotRow pivotCol r c data);
                    chk := sumOf checks (cellRows pivotRow pivotCol r c data);
                    pcs := sumOf pieces (cellRows pivotRow pivotCol r c data) |}.
Proof.
  intros Hr Hc.
  destruct (pivotTable_Tabulates data pivotRow pivotCol pivotVal)
    as (pt & Hpt & HRK & HCK & Hm & Ha).
  rewrite <-HRK in Hr. rewrite <-HCK in Hc.
  set (g0 := ((λ _ _ : string, 0 : Qc),
              (λ _ _ : string, {| rev := 0; chk := 0; pcs := 0 |}))) in *.
  destruct (foldl_stepFun_aux pivotRow pivotCol pivotVal data g0 r c) as (Hrev & Hchk & Hpcs).
  simpl in Hrev, Hchk, Hpcs. rewrite Qcplus_0_l in Hrev, Hchk, Hpcs.
  destruct (Tabulates_lookup _ _ _ _ _ _ Hm Hr Hc) as (mRow & HmRow & Hval).
  destruct (Tabulates_lookup _ _ _ _ _ _ Ha Hr Hc) as (aRow & HaRow & Haux).
  exists pt. split; [done|]. split.
  - unfold cellValue. rewrite HmRow. simpl. rewrite Hval. simpl. f_equal.
    destruct (isSumMeasure pivotVal) eqn:Hsum.
    + rewrite (foldl_stepFun_sum pivotRow pivotCol pivotVal data Hsum). simpl.
      rewrite Qcplus_0_l. by destruct pivotVal.
    + rewrite (foldl_stepFun_calc pivotRow pivotCol pivotVal data Hsum g0)
        by (intros; by destruct pivotVal).
      destruct pivotVal; try done; simpl; by rewrite ?Hrev, ?Hchk, ?Hpcs.
  - unfold auxCell. rewrite HaRow. simpl. rewrite Haux. f_equal.
    destruct ((foldl (stepFun pivotRow pivotCol pivotVal) g0 data).2 r c).
    simpl in *. by subst.
Qed.

(** X14: the row keys of the pivot table are the distinct string values of
    the row dimension, in ascending order of their characters. *)
Theorem pivot_row_keys_order (data : list NormalizedRow) (pivotRow : Field) :
  NoDup (pivotRowKeys data pivotRow) ∧
  (∀ r, r ∈ pivotRowKeys data pivotRow ↔ ∃ d, d ∈ data ∧ fieldString pivotRow d = r) ∧
  StronglySorted (λ a b, String.leb a b = true) (pivotRowKeys data pivotRow).
Proof.
  destruct (sorted_set_spec (map (fieldString pivotRow) data)) as (Hnd & Hin & Hsorted).
  split; [done|]. split; [|done].
  intros r. unfold pivotRowKeys. rewrite Hin, list_elem_of_fmap. naive_solver.
Qed.



End PivotCells.

(** ** Chart series *)

Lemma sumQc_perm (l l' : list Qc) : l ≡ₚ l' → sumQc l = sumQc l'.
Proof.
  induction 1 as [|x l l' _ IH|x y l|l l' l'' _ IH1 _ IH2]; simpl.
  - done.
  - by rewrite IH.
  - ring.
  - by rewrite IH1.
Qed.

(** The values of a dictionary built by [addTo] add up to the sum over all
    rows. *)
Lemma foldl_addTo_total (key : NormalizedRow → string) (f : NormalizedRow → Qc)
    (l : list NormalizedRow) :
  sumQc (foldl (λ m d, addTo (key d) (f d) m) [] l).*2 = sumOf f l.
Proof.
  destruct (foldl_addTo key f l) as (Hnd & Hkeys & Hvals).
  set (m := foldl (λ m d, addTo (key d) (f d) m) [] l) in *.
  rewrite <-(sum_partition key f (m.*1) l Hnd).
  - clear Hnd Hkeys. induction m as [|[k v] m IH]; [done|]. csimpl.
    rewrite (Hvals k v) by left. rewrite IH; [done|].
    intros k' v' Hin. apply Hvals. by right.
  - intros d Hd. apply Hkeys. eauto.
Qed.

Lemma ranking_sorted (m : list (string * Qc)) :
  StronglySorted (λ a b : string * Qc, b.2 ≤ a.2)
    (sortBy (λ a b : string * Qc, b.2 - a.2) m).
Proof.
  rewrite (sortBy_ext _ (λ a b : string * Qc, - a.2 - - b.2))
    by (intros a b _ _; simpl; ring).
  eapply StronglySorted_impl_in;
    [|apply (sortBy_rank_sorted (λ a : string * Qc, - a.2) m)].
  intros a b _ _ Hab. simpl in Hab. apply Qcopp_le_compat in Hab.
  by rewrite !Qcopp_involutive in Hab.
Qed.

Section SeriesProperties.
Context `{JsHost}.


End SeriesProperties.


(** ** Ingestion *)

Section IngestionProperties.
Context `{JsHost}.

(** X20: a payload is ingested the same way whether it is the bare array of
    raw rows or an object that holds the array under [rows]. *)
Theorem ingest_rows_wrapper (o : gmap string JsVal) (l : list JsVal) :
  o !! "rows" = Some (JArr l) → ingest (JObj o) = ingest (JArr l).
Proof. intros Hrows. unfold ingest. simpl. by rewrite Hrows. Qed.

(** X21: ingestion never produces an empty dataset: whenever it returns,
    the payload was a non-empty array of raw rows, bare or under [rows],
    and the dataset is its normalisation, one row per raw row.  A payload
    without rows ([null], an empty array, an object without a [rows] array,
    or with an empty one) is an error. *)
Theorem ingest_nonempty (result : JsVal) (data : list NormalizedRow) :
  ingest result = Some data →
  data ≠ [] ∧
  ∃ l, (result = JArr l ∨ ∃ o, result = JObj o ∧ o !! "rows" = Some (JArr l)) ∧
       normalizeData l = Some data ∧ length data = length l.
Proof.
  intros Hing.
  assert (∃ l, (result = JArr l ∨ ∃ o, result = JObj o ∧ o !! "rows" = Some (JArr l)) ∧
               l ≠ [] ∧ normalizeData l = Some data) as (l & Hshape & Hne & Hnorm).
  { unfold ingest in Hing. destruct result as [| |b|q|s|l|o]; simpl in Hing; try done.
    - destruct l as [|x l]; [done|]. exists (x :: l). split; [by left|done].
    - destruct (o !! "rows") as [rows|] eqn:Hrows; simpl in Hing; [|done].
      unfold jsOr in Hing. destruct (truthy rows) eqn:Ht; [|done].
      destruct rows as [| | | | |l|]; try done.
      destruct l as [|x l]; [done|]. exists (x :: l). split; [|done].
      right. by exists o. }
  destruct (normalizeFrom_lookup l 0 data Hnorm) as [Hlen _].
  split; [|by exists l].
  intros ->. destruct l; [done|]. simpl in Hlen. lia.
Qed.
End IngestionProperties.

Lemma ingest_rows_wrapper_witness :
  ingest (H := refHost) (obj [("rows", JArr [obj [("checks", JNum (num 7))]])])
  = ingest (H := refHost) (JArr [obj [("checks", JNum (num 7))]]).
Proof. apply (@ingest_rows_wrapper refHost). reflexivity. Defined.

Lemma ingest_no_rows :
  ingest (H := refHost) JNull = None ∧ ingest (H := refHost) (JArr []) = None ∧
  ingest (H := refHost) (obj []) = None ∧
  ingest (H := refHost) (obj [("rows", JArr [])]) = None ∧
  ingest (H := refHost) (obj [("rows", JStr "abc")]) = None.
Proof. repeat split; reflexivity. Qed.

(** ** The properties on concrete data *)

Lemma normalizeData_rows_witness :
  ∃ data, normalizeData (H := refHost) rawSample = Some data ∧
          length data = length rawSample.
Proof.
  destruct (normalizeData (H := refHost) rawSample) as [data|] eqn:Hdata;
    [|by vm_compute in Hdata].
  exists data. split; [reflexivity|].
  by apply (@normalizeData_rows refHost rawSample data).
Defined.

Lemma normalized_ids_witness :
  ∃ data, normalizeData (H := refHost) rawSample = Some data ∧
          ∀ n, n ∈ data → id n ≠ "".
Proof.
  destruct (normalizeData (H := refHost) rawSample) as [data|] eqn:Hdata;
    [|by vm_compute in Hdata].
  exists data. split; [reflexivity|].
  by apply (@normalized_ids refHost rawSample data).
Defined.


Lemma normalized_year_witness :
  ∃ n, normalizeRow (H := refHost) 0 (obj [("year", JStr "n/a")]) = Some n ∧ year n ≠ 0.
Proof.
  destruct (normalizeRow (H := refHost) 0 (obj [("year", JStr "n/a")]))
    as [n|] eqn:Hn; [|by vm_compute in Hn].
  exists n. split; [reflexivity|].
  by apply (@normalized_year refHost 0 (obj [("year", JStr "n/a")]) n).
Defined.





Lemma ingest_nonempty_witness :
  ∃ data, ingest (H := refHost) (obj [("rows", JArr rawSample)]) = Some data ∧ data ≠ [].
Proof.
  destruct (ingest (H := refHost) (obj [("rows", JArr rawSample)])) as [data|] eqn:Hdata;
    [|by vm_compute in Hdata].
  exists data. split; [reflexivity|].
  by apply (@ingest_nonempty refHost (obj [("rows", JArr rawSample)]) data).
Defined.
